(** * cpp-thread-pool: a fixed-size worker pool and its parallel algorithms

    The development has two parts.

    - [ThreadPool] embeds [src/thread_pool.cpp]: the two constructors, the
      worker lambda with its pull-execute loop, and the destructor.  Threads
      are modelled by program counters named after the source lines they
      stand at, the mutex [m_task_] by its owner, the condition variable
      [cv_task_] by the set of workers blocked in it, and an execution by a
      list of scheduling decisions ([label]) interpreted by [step].
    - [Algorithms] holds the chunk partitioning and the two parallel
      algorithms [ForEach] and [TransformReduce].

    The header [thread_pool.h] (class declaration and the templates
    [Enqueue], [ForEach], [TransformReduce]) is not part of the sources at
    hand; what is needed of it is modelled from the specification and is
    marked as such. *)

From stdpp Require Import base list strings.
From Stdlib Require Import ZArith.

Set Default Proof Using "Type".

Module ThreadPool.

(** ** Data *)

(** What a callable does when invoked: it returns a value or throws. *)
Inductive outcome (Val Exn : Type) : Type :=
  | Returns (v : Val)
  | Throws (e : Exn).
Arguments Returns {Val Exn} v.
Arguments Throws {Val Exn} e.

(** The shared state of one promise/future pair. *)
Inductive channel (Val Exn : Type) : Type :=
  | Pending
  | Value (v : Val)
  | Failure (e : Exn).
Arguments Pending {Val Exn}.
Arguments Value {Val Exn} v.
Arguments Failure {Val Exn} e.

(** [throw std::runtime_error(what)] of the constructor. *)
Inductive ctor_error : Type :=
  | runtime_error (what : string).

(** Owner of the mutex [m_task_]. *)
Inductive owner : Type :=
  | OWorker (i : nat)
  | ODtor.

#[global] Instance owner_eq_dec : EqDecision owner.
Proof. solve_decision. Defined.

(** Program counter of the destructor, [thread_pool.cpp] lines 45-56. *)
Inductive dtor_pc : Type :=
  | DAlive            (* the destructor has not been called *)
  | D47               (* about to take the lock_guard *)
  | D48               (* lock held: is_terminated_ = true *)
  | D49               (* lock held: end of the guarded scope *)
  | D51               (* cv_task_.notify_all() *)
  | D53 (j : nat)     (* threads_[j].join() *)
  | DDone.            (* destructor returned *)

Section Pool.

Context {Arg Val Exn : Type}.

(** A queue entry.  The queue holds [std::function<void()>]; the only
    entries are the wrappers built by [Enqueue], which bind the callable to
    its arguments and own the producer side of channel [t_chan]. *)
Record task : Type := Task {
  t_chan : nat;
  t_fn : Arg → outcome Val Exn;
  t_args : Arg
}.

(** Program counter of a worker thread, the lambda of lines 20-41. *)
Inductive worker_pc : Type :=
  | L21                 (* if (on_thread_start) on_thread_start(); *)
  | L26                 (* unique_lock lock(m_task_): not yet acquired *)
  | L27                 (* lock held: evaluate the wait predicate *)
  | L27_blocked         (* inside cv_task_.wait, lock released *)
  | L27_woken           (* woken up, re-acquiring the lock *)
  | L28                 (* lock held: if (tasks_.empty() && is_terminated_) *)
  | L31                 (* lock held: task = tasks_.front(); tasks_.pop(); *)
  | L33 (t : task)      (* lock held: lock.unlock(); *)
  | L35 (t : task)      (* task(); *)
  | L38                 (* if (on_thread_stop) on_thread_stop(); *)
  | Returned            (* the lambda returned *)
  | Undefined           (* front()/pop() on an empty queue *)
  | Aborted (e : Exn).  (* an exception left the lambda: std::terminate *)

Record worker : Type := Worker {
  pc : worker_pc;
  start_calls : nat;    (* invocations of on_thread_start by this thread *)
  stop_calls : nat      (* invocations of on_thread_stop by this thread *)
}.

Record pool : Type := Pool {
  num_threads_ : nat;
  is_terminated_ : bool;
  threads_ : list worker;
  tasks_ : list task;                  (* front of the queue = head *)
  m_task_ : option owner;              (* None: unlocked *)
  on_thread_start : bool;              (* is the std::function non-empty *)
  on_thread_stop : bool;
  channels : list (channel Val Exn);   (* one per handle handed out *)
  dtor : dtor_pc
}.

(** Field updates. *)
Definition set_terminated (b : bool) (s : pool) : pool :=
  Pool (num_threads_ s) b (threads_ s) (tasks_ s) (m_task_ s)
       (on_thread_start s) (on_thread_stop s) (channels s) (dtor s).
Definition set_threads (ths : list worker) (s : pool) : pool :=
  Pool (num_threads_ s) (is_terminated_ s) ths (tasks_ s) (m_task_ s)
       (on_thread_start s) (on_thread_stop s) (channels s) (dtor s).
Definition set_tasks (q : list task) (s : pool) : pool :=
  Pool (num_threads_ s) (is_terminated_ s) (threads_ s) q (m_task_ s)
       (on_thread_start s) (on_thread_stop s) (channels s) (dtor s).
Definition set_mutex (o : option owner) (s : pool) : pool :=
  Pool (num_threads_ s) (is_terminated_ s) (threads_ s) (tasks_ s) o
       (on_thread_start s) (on_thread_stop s) (channels s) (dtor s).
Definition set_channels (cs : list (channel Val Exn)) (s : pool) : pool :=
  Pool (num_threads_ s) (is_terminated_ s) (threads_ s) (tasks_ s) (m_task_ s)
       (on_thread_start s) (on_thread_stop s) cs (dtor s).
Definition set_dtor (d : dtor_pc) (s : pool) : pool :=
  Pool (num_threads_ s) (is_terminated_ s) (threads_ s) (tasks_ s) (m_task_ s)
       (on_thread_start s) (on_thread_stop s) (channels s) d.

Definition set_pc (p : worker_pc) (w : worker) : worker :=
  Worker p (start_calls w) (stop_calls w).
Definition set_worker (i : nat) (w : worker) (s : pool) : pool :=
  set_threads (<[i := w]> (threads_ s)) s.

(** ** Construction, lines 3-43 *)

(** The member initialisers of line 12; the remaining members are default
    constructed. *)
Definition member_init (num_threads : nat) (on_start on_stop : bool) : pool :=
  Pool num_threads false [] [] None on_start on_stop [] DAlive.

(** The loop of lines 19-42: [emplace_back] one thread per iteration, each
    starting at the top of the lambda. *)
Fixpoint spawn (n : nat) (this : pool) : pool :=
  match n with
  | 0 => this
  | S n' => spawn n' (set_threads (threads_ this ++ [Worker L21 0 0]) this)
  end.

(** Result of a constructor call: it throws, leaving the partially
    constructed object behind to be destroyed, or it completes. *)
Inductive ctor_result : Type :=
  | CtorThrows (e : ctor_error) (this : pool)
  | Constructed (this : pool).

Definition ThreadPool_ctor (num_threads : nat) (on_start on_stop : bool)
  : ctor_result :=
  let this := member_init num_threads on_start on_stop in
  if num_threads =? 0
  then CtorThrows
         (runtime_error "The number of threads must be larger than 0.") this
  else Constructed (spawn num_threads this).

(** The delegating constructor of lines 3-6.  [hardware_concurrency] is the
    value [std::thread::hardware_concurrency()] reports on the platform; the
    standard lets it be 0 when the value is not computable. *)
Definition ThreadPool_default_ctor (hardware_concurrency : nat)
    (on_start on_stop : bool) : ctor_result :=
  ThreadPool_ctor hardware_concurrency on_start on_stop.

(** ** The worker lambda, lines 20-41 *)

(** The predicate handed to [cv_task_.wait], line 27. *)
Definition wait_pred (s : pool) : bool :=
  negb (bool_decide (tasks_ s = [])) || is_terminated_ s.

(** Modelled from the spec: the task wrapper built by [Enqueue]
    ([thread_pool.h] is missing).  Running it invokes the callable on its
    bound arguments, catches whatever it throws, and writes the value or the
    failure into the task's channel.  The second component is the exception
    that leaves the wrapper, which is none. *)
Definition to_channel (o : outcome Val Exn) : channel Val Exn :=
  match o with
  | Returns v => Value v
  | Throws e => Failure e
  end.

Definition invoke (t : task) (cs : list (channel Val Exn))
  : list (channel Val Exn) * option Exn :=
  (<[t_chan t := to_channel (t_fn t (t_args t))]> cs, None).

(** One instruction of worker [i]; [None] when the thread cannot move
    (blocked on the mutex or in the condition variable, or finished). *)
Definition worker_step (i : nat) (s : pool) : option pool :=
  w ← threads_ s !! i;
  match pc w with
  | L21 =>
      let w' := if on_thread_start s
                then Worker L26 (S (start_calls w)) (stop_calls w)
                else set_pc L26 w in
      Some (set_worker i w' s)
  | L26 | L27_woken =>
      match m_task_ s with
      | None => Some (set_mutex (Some (OWorker i)) (set_worker i (set_pc L27 w) s))
      | Some _ => None
      end
  | L27 =>
      if wait_pred s
      then Some (set_worker i (set_pc L28 w) s)
      else Some (set_mutex None (set_worker i (set_pc L27_blocked w) s))
  | L27_blocked => None
  | L28 =>
      if bool_decide (tasks_ s = []) && is_terminated_ s
      then (* return: the unique_lock destructor unlocks *)
        Some (set_mutex None (set_worker i (set_pc Returned w) s))
      else Some (set_worker i (set_pc L31 w) s)
  | L31 =>
      match tasks_ s with
      | [] => Some (set_worker i (set_pc Undefined w) s)
      | t :: q => Some (set_tasks q (set_worker i (set_pc (L33 t) w) s))
      end
  | L33 t => Some (set_mutex None (set_worker i (set_pc (L35 t) w) s))
  | L35 t =>
      match invoke t (channels s) with
      | (cs, None) => Some (set_channels cs (set_worker i (set_pc L26 w) s))
      | (cs, Some e) => Some (set_channels cs (set_worker i (set_pc (Aborted e) w) s))
      end
  | L38 =>
      let w' := if on_thread_stop s
                then Worker Returned (start_calls w) (S (stop_calls w))
                else set_pc Returned w in
      Some (set_worker i w' s)
  | Returned | Undefined | Aborted _ => None
  end.

(** A wake-up of worker [i] out of [cv_task_.wait]: by a notification or
    spuriously. *)
Definition wake (w : worker) : worker :=
  match pc w with
  | L27_blocked => set_pc L27_woken w
  | _ => w
  end.

Definition is_blocked (w : worker) : bool :=
  match pc w with
  | L27_blocked => true
  | _ => false
  end.

Definition wake_step (i : nat) (s : pool) : option pool :=
  w ← threads_ s !! i;
  if is_blocked w then Some (set_worker i (wake w) s) else None.

(** [cv_task_.notify_one()]: [target] is the blocked worker the
    implementation picks, absent exactly when nobody is blocked. *)
Definition notify_one (target : option nat) (s : pool) : option pool :=
  match target with
  | Some i => wake_step i s
  | None => if forallb (λ w, negb (is_blocked w)) (threads_ s)
            then Some s else None
  end.

Definition notify_all (s : pool) : pool :=
  set_threads (wake <$> threads_ s) s.

(** ** Enqueue *)

(** Modelled from the spec: [Enqueue] ([thread_pool.h] is missing).  It
    builds the task and a fresh channel, appends the task to the queue under
    the lock, signals one waiting worker and returns the handle.  The
    critical section is one atomic step, enabled when the mutex is free. *)
Definition Enqueue (f : Arg → outcome Val Exn) (a : Arg) (target : option nat)
    (s : pool) : option (pool * nat) :=
  match m_task_ s with
  | Some _ => None
  | None =>
      let h := length (channels s) in
      let s1 := set_channels (channels s ++ [Pending]) s in
      let s2 := set_tasks (tasks_ s1 ++ [Task h f a]) s1 in
      s3 ← notify_one target s2;
      Some (s3, h)
  end.


(** ** The destructor, lines 45-56 *)

Definition is_returned (w : worker) : bool :=
  match pc w with
  | Returned => true
  | _ => false
  end.

Definition dtor_step (s : pool) : option pool :=
  match dtor s with
  | DAlive => Some (set_dtor D47 s)
  | D47 =>
      match m_task_ s with
      | None => Some (set_mutex (Some ODtor) (set_dtor D48 s))
      | Some _ => None
      end
  | D48 => Some (set_terminated true (set_dtor D49 s))
  | D49 => Some (set_mutex None (set_dtor D51 s))
  | D51 => Some (notify_all (set_dtor (D53 0) s))
  | D53 j =>
      match threads_ s !! j with
      | None => Some (set_dtor DDone s)
      | Some w => if is_returned w then Some (set_dtor (D53 (S j)) s) else None
      end
  | DDone => None
  end.

(** ** Executions *)

(** A scheduling decision. *)
Inductive label : Type :=
  | LWorker (i : nat)
  | LWake (i : nat)
  | LEnqueue (f : Arg → outcome Val Exn) (a : Arg) (target : option nat)
  | LDtor.

Definition step (s : pool) (l : label) : option pool :=
  match l with
  | LWorker i => worker_step i s
  | LWake i => wake_step i s
  | LEnqueue f a target => fst <$> Enqueue f a target s
  | LDtor => dtor_step s
  end.

Fixpoint run (s : pool) (tr : list label) : option pool :=
  match tr with
  | [] => Some s
  | l :: tr' => s' ← step s l; run s' tr'
  end.

(** ** Invariants of reachable states *)

(** What holds of worker [i] at each program point: who owns the mutex, what
    the queue and the flag look like while it is held, and that the stop
    hook was not run.  Lines 38-40, undefined behaviour and termination by
    an escaped exception are never reached. *)
Definition worker_inv (s : pool) (i : nat) (w : worker) : Prop :=
  stop_calls w = 0 ∧
  match pc w with
  | L21 | L26 | L27_blocked | L27_woken => m_task_ s ≠ Some (OWorker i)
  | L27 => m_task_ s = Some (OWorker i)
  | L28 =>
      m_task_ s = Some (OWorker i) ∧ (tasks_ s ≠ [] ∨ is_terminated_ s = true)
  | L31 => m_task_ s = Some (OWorker i) ∧ tasks_ s ≠ []
  | L33 t => m_task_ s = Some (OWorker i) ∧ t_chan t < length (channels s)
  | L35 t => m_task_ s ≠ Some (OWorker i) ∧ t_chan t < length (channels s)
  | Returned => m_task_ s ≠ Some (OWorker i) ∧ is_terminated_ s = true
  | L38 | Undefined | Aborted _ => False
  end.

Definition dtor_inv (s : pool) : Prop :=
  match dtor s with
  | DAlive | D47 => is_terminated_ s = false ∧ m_task_ s ≠ Some ODtor
  | D48 => is_terminated_ s = false ∧ m_task_ s = Some ODtor
  | D49 => is_terminated_ s = true ∧ m_task_ s = Some ODtor
  | D51 => is_terminated_ s = true ∧ m_task_ s ≠ Some ODtor
  | D53 j =>
      is_terminated_ s = true ∧ m_task_ s ≠ Some ODtor ∧
      ∀ i w, i < j → threads_ s !! i = Some w → pc w = Returned
  | DDone =>
      is_terminated_ s = true ∧ m_task_ s ≠ Some ODtor ∧
      ∀ i w, threads_ s !! i = Some w → pc w = Returned
  end.

Record pool_inv (s : pool) : Prop := PoolInv {
  inv_workers : ∀ i w, threads_ s !! i = Some w → worker_inv s i w;
  inv_queue : ∀ t, t ∈ tasks_ s → t_chan t < length (channels s);
  inv_dtor : dtor_inv s;
  inv_size : length (threads_ s) = num_threads_ s
}.

(** ** Tasks in flight and what their channels will hold *)

(** What running the task's callable on its bound arguments gives. *)
Definition result_of (t : task) : outcome Val Exn := t_fn t (t_args t).

(** The task a worker has popped and not yet finished. *)
Definition held_task (w : worker) : option task :=
  match pc w with
  | L33 t | L35 t => Some t
  | _ => None
  end.

(** A task is live while it is queued or in the hands of a worker. *)
Definition live (s : pool) (t : task) : Prop :=
  t ∈ tasks_ s ∨ ∃ i w, threads_ s !! i = Some w ∧ held_task w = Some t.

Definition resolved (s : pool) (h : nat) : Prop :=
  ∃ c, channels s !! h = Some c ∧ c ≠ Pending.

(** [ρ] lists, handle by handle, the outcome of the callable submitted under
    that handle.  The pool agrees with it when every live task computes the
    outcome listed for its channel and every channel is either pending or
    holds that outcome. *)
Record agree (ρ : list (outcome Val Exn)) (s : pool) : Prop := Agree {
  agree_length : length ρ = length (channels s);
  agree_live : ∀ t, live s t → ρ !! t_chan t = Some (result_of t);
  agree_chan : ∀ h c, channels s !! h = Some c →
               c = Pending ∨ to_channel <$> ρ !! h = Some c
}.

Definition some_returned (s : pool) : Prop :=
  ∃ i w, threads_ s !! i = Some w ∧ pc w = Returned.

(** The tasks [Q] are tracked: each was handed a channel, and is still live
    or has written it. *)
Record tracked (Q : list task) (s : pool) : Prop := Tracked {
  tracked_live : ∀ t, t ∈ Q → live s t ∨ resolved s (t_chan t);
  tracked_old : ∀ t, t ∈ Q → t_chan t < length (channels s)
}.

(** The tasks [Q] are drained: once a worker has left its loop none of them
    is queued any more. *)
Definition drained (Q : list task) (s : pool) : Prop :=
  some_returned s → ∀ t, t ∈ Q → t ∉ tasks_ s.

(** What one instruction of worker [i] does to the queue, the channels and
    the task in its hands: nothing, leave the loop, pop, or run the task. *)
Inductive effect (s s' : pool) (i : nat) (w w' : worker) : Prop :=
  | eff_silent :
      tasks_ s' = tasks_ s → channels s' = channels s →
      held_task w' = held_task w → pc w' ≠ Returned →
      (pc w' = L27_blocked → tasks_ s = []) → effect s s' i w w'
  | eff_exit :
      pc w = L28 → is_terminated_ s = true → tasks_ s = [] →
      m_task_ s = Some (OWorker i) →
      tasks_ s' = [] → channels s' = channels s →
      held_task w = None → pc w' = Returned → effect s s' i w w'
  | eff_pop t :
      tasks_ s = t :: tasks_ s' → channels s' = channels s →
      held_task w = None → held_task w' = Some t → pc w' ≠ Returned →
      pc w' ≠ L27_blocked → effect s s' i w w'
  | eff_exec t :
      tasks_ s' = tasks_ s → held_task w = Some t → held_task w' = None →
      channels s' = <[t_chan t := to_channel (result_of t)]> (channels s) →
      t_chan t < length (channels s) → pc w' ≠ Returned →
      pc w' ≠ L27_blocked → effect s s' i w w'.

Definition held_by_other (s : pool) (i : nat) (t : task) : Prop :=
  ∃ j w, j ≠ i ∧ threads_ s !! j = Some w ∧ held_task w = Some t.

(** ** Progress *)

(** The steps the pool takes by itself: no further submission and no
    spurious wake-up. *)
Definition quiet (l : label) : Prop :=
  match l with
  | LWorker _ | LDtor => True
  | LWake _ | LEnqueue _ _ _ => False
  end.

(** From [s] the pool can, by itself, get to a state satisfying [P]. *)
Definition can_reach (s : pool) (P : pool → Prop) : Prop :=
  ∃ tr s', run s tr = Some s' ∧ Forall quiet tr ∧ P s'.



(** The mutex is owned by a thread of the pool. *)
Definition owner_inv (s : pool) : Prop :=
  ∀ i, m_task_ s = Some (OWorker i) → i < length (threads_ s).

(** ** Further invariants *)

(** The program points of the worker between the lock of line 26 and the
    unlock of line 33 (or of the [return] of line 29), and those of the
    destructor inside the scope of its [lock_guard]. *)
Definition holds_mutex (p : worker_pc) : bool :=
  match p with
  | L27 | L28 | L31 | L33 _ => true
  | _ => false
  end.

Definition dtor_holds_mutex (d : dtor_pc) : bool :=
  match d with
  | D48 | D49 => true
  | _ => false
  end.

(** How often a worker standing at [p] has called the start hook. *)
Definition expected_start_calls (on_start : bool) (p : worker_pc)
  : nat :=
  match p with
  | L21 => 0
  | _ => if on_start then 1 else 0
  end.

Definition start_hook_inv (s : pool) : Prop :=
  ∀ i w, threads_ s !! i = Some w →
         start_calls w = expected_start_calls (on_thread_start s) (pc w).

(** Once the destructor has notified all, no worker is left blocked in
    [cv_task_.wait]. *)
Definition no_sleeper (s : pool) : Prop :=
  match dtor s with
  | D53 _ | DDone => ∀ i w, threads_ s !! i = Some w → pc w ≠ L27_blocked
  | _ => True
  end.

(** Whether the destructor standing at [d] has executed line 48. *)
Definition dtor_flag_set (d : dtor_pc) : bool :=
  match d with
  | DAlive | D47 | D48 => false
  | _ => true
  end.

(** ** Teardown makes progress *)

(** The invariants a progress argument starts from. *)
Definition sound (s : pool) : Prop :=
  pool_inv s ∧ owner_inv s ∧ no_sleeper s.



(** How far a worker inside the critical section is from leaving it. *)
Definition lock_rank (p : worker_pc) : nat :=
  match p with
  | L33 _ => 0
  | L31 => 1
  | L28 => 2
  | L27 => 3
  | _ => 0
  end.

End Pool.

Arguments task : clear implicits.
Arguments worker_pc : clear implicits.
Arguments worker : clear implicits.
Arguments pool : clear implicits.
Arguments label : clear implicits.
Arguments ctor_result : clear implicits.

(** ** A run of the test suite's tasks *)

(** [[](int a, int b) { return a + b; }] and
    [[]() -> int { throw std::runtime_error("Test Exception"); }]. *)
Definition add_args (p : Z * Z) : outcome Z string := Returns (p.1 + p.2)%Z.
Definition throw_test_exception (p : Z * Z) : outcome Z string :=
  Throws "Test Exception".

(** [ThreadPool pool(1)] with a stop hook supplied. *)
Definition test_pool : pool (Z * Z) Z string :=
  spawn 1 (member_init 1 false true).

Definition state_after (tr : list (label (Z * Z) Z string))
  : pool (Z * Z) Z string :=
  default test_pool (run test_pool tr).

(** Two submissions while the worker has not started yet. *)
Definition submit_trace : list (label (Z * Z) Z string) :=
  [LEnqueue add_args (5, 7)%Z None;
   LEnqueue throw_test_exception (0, 0)%Z None].

(** The worker runs up to the pop of line 31, and on into the first task. *)
Definition to_pop_trace : list (label (Z * Z) Z string) :=
  submit_trace ++ replicate 4 (LWorker 0).
Definition to_task_trace : list (label (Z * Z) Z string) :=
  submit_trace ++ replicate 6 (LWorker 0).

(** The destructor runs up to the join, the worker drains the queue and
    returns, the join completes. *)
Definition teardown_trace : list (label (Z * Z) Z string) :=
  replicate 5 LDtor ++ replicate 16 (LWorker 0) ++ replicate 2 LDtor.

(** [ThreadPool pool(2, on_start, on_stop)] with both hooks supplied. *)
Definition hooked_pool : pool (Z * Z) Z string :=
  spawn 2 (member_init 2 true true).

Definition hooked_after (tr : list (label (Z * Z) Z string))
  : pool (Z * Z) Z string :=
  default hooked_pool (run hooked_pool tr).

End ThreadPool.

(** * The parallel algorithms *)

Module Algorithms.

(** ** Chunk partitioning *)





Section ForEach.

Context {A : Type}.

(** ** ForEach *)








End ForEach.

Section TransformReduce.

Context {A T : Type}.

(** ** TransformReduce *)





End TransformReduce.

End Algorithms.

Module PoolTheory.
Import ThreadPool.

Section Invariants.

Context {Arg Val Exn : Type}.
Implicit Types (s this p : pool Arg Val Exn) (w : worker Arg Val Exn).
Implicit Types (t : task Arg Val Exn) (tr : list (label Arg Val Exn)).

(** Case split on the slot read back after worker [i] was overwritten. *)
Ltac split_slot H :=
  apply list_lookup_insert_Some in H as [(<- & <- & ?)|(? & H)].

Ltac other_worker Hinv H :=
  let Hw := fresh in
  pose proof (Hinv _ _ H) as Hw; revert Hw; unfold worker_inv; simpl;
  rewrite ?length_insert; case_match; naive_solver.

Lemma spawn_threads n this :
  threads_ (spawn n this) = threads_ this ++ replicate n (Worker L21 0 0).
Proof.
  revert this. induction n as [|n IH]; intros this; simpl.
  - by rewrite app_nil_r.
  - rewrite IH. simpl. by rewrite <- app_assoc.
Qed.

Lemma spawn_fields n this :
  num_threads_ (spawn n this) = num_threads_ this ∧
  is_terminated_ (spawn n this) = is_terminated_ this ∧
  tasks_ (spawn n this) = tasks_ this ∧
  m_task_ (spawn n this) = m_task_ this ∧
  on_thread_start (spawn n this) = on_thread_start this ∧
  on_thread_stop (spawn n this) = on_thread_stop this ∧
  channels (spawn n this) = channels this ∧
  dtor (spawn n this) = dtor this.
Proof.
  revert this. induction n as [|n IH]; intros this; simpl; [done|].
  destruct (IH (set_threads (threads_ this ++ [Worker L21 0 0]) this))
    as (-> & -> & -> & -> & -> & -> & -> & ->). done.
Qed.

Lemma ctor_inv n st sp s :
  ThreadPool_ctor n st sp = Constructed s → pool_inv s.
Proof.
  unfold ThreadPool_ctor. case_match; [done|]. intros [= <-].
  pose proof (spawn_fields n (member_init n st sp)) as
    (Hn & Hterm & Hq & Hm & _ & _ & Hc & Hd).
  pose proof (spawn_threads n (member_init n st sp)) as Hth. simpl in *.
  split.
  - intros i w. rewrite Hth. intros Hw%lookup_replicate_1. destruct Hw as [-> _].
    unfold worker_inv. simpl. rewrite Hm. done.
  - intros t. rewrite Hq. by intros ?%elem_of_nil.
  - unfold dtor_inv. rewrite Hd, Hterm, Hm. done.
  - rewrite Hth, Hn. simpl. by rewrite length_replicate.
Qed.

Ltac dtor_after_worker Hd Hi :=
  revert Hd; unfold dtor_inv; simpl; case_match;
  first
  [ by intros
  | intros (? & ? & Hjoin); split_and!; [done..|];
    intros k wk Hk Hlk; split_slot Hlk; [|by eauto];
    specialize (Hjoin _ _ Hk Hi); simpl in *; congruence
  | intros (? & ? & Hjoin); split_and!; [done..|];
    intros k wk Hlk; split_slot Hlk; [|by eauto];
    specialize (Hjoin _ _ Hi); simpl in *; congruence
  | naive_solver ].

Lemma worker_step_inv i s s' :
  pool_inv s → worker_step i s = Some s' → pool_inv s'.
Proof.
  intros [Hws Hq Hd Hsz]. unfold worker_step.
  destruct (threads_ s !! i) as [w|] eqn:Hi; [simpl|done].
  pose proof (Hws i w Hi) as Hw. unfold worker_inv in Hw.
  destruct (pc w) eqn:Hpc; try done; try (by destruct Hw).
  - (* L21 *)
    intros [= <-]. split; simpl; [| done | | by rewrite length_insert].
    + intros j wj Hj. split_slot Hj; [|other_worker Hws Hj].
      unfold worker_inv. destruct (on_thread_start s); simpl; naive_solver.
    + dtor_after_worker Hd Hi.
  - (* L26 *)
    destruct (m_task_ s) eqn:Hm; [done|]. intros [= <-].
    split; simpl; [| done | | by rewrite length_insert].
    + intros j wj Hj. split_slot Hj; [unfold worker_inv; simpl; naive_solver|other_worker Hws Hj].
    + dtor_after_worker Hd Hi.
  - (* L27 *)
    unfold wait_pred. destruct (tasks_ s) as [|t q] eqn:Hts;
      destruct (is_terminated_ s) eqn:Hterm; simpl; intros [= <-];
      (split; simpl; [| by rewrite ?Hts | | by rewrite length_insert]);
      try (intros j wj Hj; split_slot Hj;
           [unfold worker_inv; simpl; rewrite ?Hts, ?Hterm; naive_solver
           |other_worker Hws Hj]);
      dtor_after_worker Hd Hi.
  - (* L27_woken *)
    destruct (m_task_ s) eqn:Hm; [done|]. intros [= <-].
    split; simpl; [| done | | by rewrite length_insert].
    + intros j wj Hj. split_slot Hj; [unfold worker_inv; simpl; naive_solver|other_worker Hws Hj].
    + dtor_after_worker Hd Hi.
  - (* L28 *)
    destruct (tasks_ s) as [|t q] eqn:Hts;
      destruct (is_terminated_ s) eqn:Hterm; simpl; intros [= <-];
      (split; simpl; [| by rewrite ?Hts | | by rewrite length_insert]);
      try (intros j wj Hj; split_slot Hj;
           [unfold worker_inv; simpl; rewrite ?Hts, ?Hterm; naive_solver
           |other_worker Hws Hj]);
      dtor_after_worker Hd Hi.
  - (* L31 *)
    destruct (tasks_ s) as [|t q] eqn:Hts; [naive_solver|]. intros [= <-].
    split; simpl; [| | | by rewrite length_insert].
    + intros j wj Hj. split_slot Hj; [|other_worker Hws Hj].
      unfold worker_inv; simpl. split_and!; [naive_solver..|].
      apply Hq. left.
    + intros t' Ht'. apply Hq. by right.
    + dtor_after_worker Hd Hi.
  - (* L33 *)
    intros [= <-]. split; simpl; [| done | | by rewrite length_insert].
    + intros j wj Hj. split_slot Hj; [|other_worker Hws Hj].
      unfold worker_inv; simpl. naive_solver.
    + dtor_after_worker Hd Hi.
  - (* L35 *)
    intros [= <-]. split; simpl; [| | | by rewrite length_insert].
    + intros j wj Hj. split_slot Hj; [|other_worker Hws Hj].
      unfold worker_inv; simpl. naive_solver.
    + intros t' Ht'. rewrite length_insert. by apply Hq.
    + dtor_after_worker Hd Hi.
Qed.

Lemma wake_worker_inv s s' i w :
  m_task_ s' = m_task_ s → tasks_ s' = tasks_ s →
  is_terminated_ s' = is_terminated_ s → channels s' = channels s →
  worker_inv s i w → worker_inv s' i (wake w).
Proof.
  unfold worker_inv, wake. intros -> -> -> ->.
  destruct (pc w) eqn:Hpc; simpl; rewrite ?Hpc; done.
Qed.

Lemma wake_returned w : pc (wake w) = Returned ↔ pc w = Returned.
Proof. unfold wake. destruct (pc w) eqn:Hpc; simpl; by rewrite ?Hpc. Qed.

Lemma wake_step_inv i s s' :
  pool_inv s → wake_step i s = Some s' → pool_inv s'.
Proof.
  intros [Hws Hq Hd Hsz]. unfold wake_step.
  destruct (threads_ s !! i) as [w|] eqn:Hi; [simpl|done].
  destruct (is_blocked w) eqn:Hb; [|done]. intros [= <-].
  split; simpl; [| done | | by rewrite length_insert].
  - intros j wj Hj. split_slot Hj; [|other_worker Hws Hj].
    by apply (wake_worker_inv s), Hws.
  - revert Hd. unfold dtor_inv. simpl. case_match; try done.
    + intros (? & ? & Hjoin). split_and!; [done..|].
      intros k wk Hk Hlk. split_slot Hlk; [|by eauto].
      apply wake_returned. eauto.
    + intros (? & ? & Hjoin). split_and!; [done..|].
      intros k wk Hlk. split_slot Hlk; [|by eauto].
      apply wake_returned. eauto.
Qed.

Lemma notify_one_inv target s s' :
  pool_inv s → notify_one target s = Some s' → pool_inv s'.
Proof.
  destruct target as [i|]; simpl; [apply wake_step_inv|].
  case_match; [|done]. by intros ? [= <-].
Qed.

Lemma notify_one_fields target s s' :
  notify_one target s = Some s' →
  m_task_ s' = m_task_ s ∧ tasks_ s' = tasks_ s ∧
  is_terminated_ s' = is_terminated_ s ∧ channels s' = channels s ∧
  dtor s' = dtor s.
Proof.
  destruct target as [i|]; simpl.
  - unfold wake_step. destruct (threads_ s !! i); [simpl|done].
    case_match; [|done]. by intros [= <-].
  - case_match; [|done]. by intros [= <-].
Qed.

Lemma Enqueue_inv f a target s s' h :
  pool_inv s → Enqueue f a target s = Some (s', h) → pool_inv s'.
Proof.
  intros [Hws Hq Hd Hsz]. unfold Enqueue.
  destruct (m_task_ s) eqn:Hm; [done|]. simpl.
  destruct (notify_one target _) as [s3|] eqn:Hn; [simpl|done].
  intros [= <- <-]. eapply notify_one_inv; [|exact Hn].
  split; simpl; [| | | done].
  - intros j wj Hj. pose proof (Hws _ _ Hj) as Hw. revert Hw.
    unfold worker_inv. simpl. rewrite length_app. simpl.
    case_match; try naive_solver.
    intros (? & ? & ?). split_and!; [done..|lia].
  - intros t. rewrite length_app. simpl.
    intros [Ht| ->%list_elem_of_singleton]%elem_of_app; simpl; [|lia].
    specialize (Hq _ Ht). lia.
  - revert Hd. unfold dtor_inv. simpl. by case_match.
Qed.

Lemma dtor_step_inv s s' :
  pool_inv s → dtor_step s = Some s' → pool_inv s'.
Proof.
  intros [Hws Hq Hd Hsz]. unfold dtor_step. unfold dtor_inv in Hd.
  destruct (dtor s) eqn:Hpc.
  - by intros [= <-].
  - destruct (m_task_ s) eqn:Hm; [done|]. intros [= <-].
    split; simpl; try done.
    + intros j wj Hj. pose proof (Hws _ _ Hj) as Hw. revert Hw.
      unfold worker_inv. simpl. rewrite Hm. case_match; naive_solver.
    + unfold dtor_inv; simpl. naive_solver.
  - intros [= <-]. split; simpl; try done.
    + intros j wj Hj. pose proof (Hws _ _ Hj) as Hw. revert Hw.
      unfold worker_inv. simpl. case_match; naive_solver.
    + unfold dtor_inv; simpl. naive_solver.
  - intros [= <-]. split; simpl; try done.
    + intros j wj Hj. pose proof (Hws _ _ Hj) as Hw. revert Hw.
      unfold worker_inv. simpl. destruct Hd as [_ ->].
      case_match; naive_solver.
    + unfold dtor_inv; simpl. naive_solver.
  - intros [= <-]. split; simpl; try done.
    + intros j wj [w0 [-> Hj]]%list_lookup_fmap_Some.
      by apply (wake_worker_inv s), Hws.
    + unfold dtor_inv; simpl. split_and!; [naive_solver..|]. lia.
    + by rewrite length_fmap.
  - destruct (threads_ s !! j) as [w|] eqn:Hj.
    + destruct (is_returned w) eqn:Hr; [|done]. intros [= <-].
      split; simpl; try done. unfold dtor_inv; simpl.
      destruct Hd as (? & ? & Hjoin). split_and!; [done..|].
      intros k wk Hk Hlk. destruct (decide (k = j)) as [->|].
      * rewrite Hj in Hlk. injection Hlk as <-.
        unfold is_returned in Hr. by destruct (pc w).
      * apply (Hjoin k); [lia|done].
    + intros [= <-]. split; simpl; try done. unfold dtor_inv; simpl.
      destruct Hd as (? & ? & Hjoin). split_and!; [done..|].
      intros k wk Hlk. apply (Hjoin k); [|done].
      apply lookup_lt_Some in Hlk. apply lookup_ge_None in Hj. lia.
  - done.
Qed.

Lemma step_inv s l s' : pool_inv s → step s l = Some s' → pool_inv s'.
Proof.
  intros Hinv. destruct l as [i|i|f a target|]; simpl.
  - by apply worker_step_inv.
  - by apply wake_step_inv.
  - destruct (Enqueue f a target s) as [[s1 h]|] eqn:He; [simpl|done].
    intros [= <-]. by eapply Enqueue_inv.
  - by apply dtor_step_inv.
Qed.

Lemma run_inv tr s s' : pool_inv s → run s tr = Some s' → pool_inv s'.
Proof.
  revert s. induction tr as [|l tr IH]; intros s Hinv; simpl.
  - by intros [= <-].
  - destruct (step s l) as [s1|] eqn:Hs; [simpl|done].
    apply IH. by eapply step_inv.
Qed.

(** *** The effect of a step on the tasks in flight *)

Lemma worker_step_effect i s s' :
  pool_inv s → worker_step i s = Some s' →
  ∃ w w', threads_ s !! i = Some w ∧ threads_ s' = <[i:=w']> (threads_ s) ∧
          pc w ≠ Returned ∧ effect s s' i w w'.
Proof.
  intros [Hws Hq Hd Hsz]. unfold worker_step.
  destruct (threads_ s !! i) as [w|] eqn:Hi; [simpl|done].
  pose proof (Hws i w Hi) as Hw. unfold worker_inv in Hw.
  destruct (pc w) eqn:Hpc; try done; try (by destruct Hw).
  - intros [= <-]. eexists w, _. split_and!; [done|reflexivity|congruence|].
    apply eff_silent; unfold held_task; simpl; rewrite ?Hpc;
      by destruct (on_thread_start s).
  - destruct (m_task_ s); [done|]. intros [= <-]. eexists w, _.
    split_and!; [done|reflexivity|congruence|].
    apply eff_silent; unfold held_task; simpl; by rewrite ?Hpc.
  - destruct (wait_pred s) eqn:Hwp; intros [= <-]; eexists w, _;
      (split_and!; [done|reflexivity|congruence|]);
      apply eff_silent; unfold held_task; simpl; rewrite ?Hpc; try done.
    intros _. unfold wait_pred in Hwp.
    apply orb_false_elim in Hwp as [Hwp _].
    apply negb_false_iff in Hwp. by apply bool_decide_eq_true in Hwp.
  - destruct (m_task_ s); [done|]. intros [= <-]. eexists w, _.
    split_and!; [done|reflexivity|congruence|].
    apply eff_silent; unfold held_task; simpl; by rewrite ?Hpc.
  - destruct (bool_decide (tasks_ s = [])) eqn:He;
      [apply bool_decide_eq_true in He|];
      destruct (is_terminated_ s) eqn:Hterm; simpl; intros [= <-];
      eexists w, _; (split_and!; [done|reflexivity|congruence|]);
      try (apply eff_silent; unfold held_task; simpl; by rewrite ?Hpc).
    apply eff_exit; unfold held_task; simpl; rewrite ?Hpc; naive_solver.
  - destruct (tasks_ s) as [|t q] eqn:Hts; [naive_solver|]. intros [= <-].
    eexists w, _. split_and!; [done|reflexivity|congruence|].
    apply (eff_pop _ _ _ _ _ t); unfold held_task; simpl; by rewrite ?Hpc.
  - intros [= <-]. eexists w, _. split_and!; [done|reflexivity|congruence|].
    apply eff_silent; unfold held_task; simpl; by rewrite ?Hpc.
  - intros [= <-]. eexists w, _. split_and!; [done|reflexivity|congruence|].
    apply (eff_exec _ _ _ _ _ t); unfold held_task; simpl; rewrite ?Hpc;
      naive_solver.
Qed.

Lemma live_split s i w t :
  threads_ s !! i = Some w →
  live s t ↔ t ∈ tasks_ s ∨ held_task w = Some t ∨ held_by_other s i t.
Proof.
  intros Hi. unfold live, held_by_other. split.
  - intros [?|(j & wj & Hj & Ht)]; [by left|]. right.
    destruct (decide (j = i)) as [->|]; [left; congruence|right; eauto].
  - intros [?|[?|(j & wj & ? & ? & ?)]]; eauto.
Qed.

Lemma held_by_other_insert s s' i w' t :
  threads_ s' = <[i:=w']> (threads_ s) →
  held_by_other s' i t ↔ held_by_other s i t.
Proof.
  intros Hth. unfold held_by_other. rewrite Hth.
  split; intros (j & wj & Hne & Hj & Ht); exists j, wj;
    by rewrite list_lookup_insert_ne in * by done.
Qed.

Lemma live_insert s s' i w w' t :
  threads_ s !! i = Some w → threads_ s' = <[i:=w']> (threads_ s) →
  live s' t ↔ t ∈ tasks_ s' ∨ held_task w' = Some t ∨ held_by_other s i t.
Proof.
  intros Hi Hth. rewrite (live_split s' i w').
  - by rewrite (held_by_other_insert s s' i w').
  - rewrite Hth. apply list_lookup_insert_eq. by eapply lookup_lt_Some.
Qed.

Lemma held_task_wake w : held_task (wake w) = held_task w.
Proof. unfold held_task, wake. destruct (pc w) eqn:Hpc; simpl; by rewrite ?Hpc. Qed.

Lemma live_same_hands s s' i w w' t :
  threads_ s !! i = Some w → threads_ s' = <[i:=w']> (threads_ s) →
  tasks_ s' = tasks_ s → held_task w' = held_task w →
  live s' t ↔ live s t.
Proof.
  intros Hi Hth Hq Hh.
  rewrite (live_insert s s' i w w'), (live_split s i w) by done.
  by rewrite Hq, Hh.
Qed.

Lemma live_notify_all s t : live (notify_all s) t ↔ live s t.
Proof.
  unfold live, notify_all. simpl. split.
  - intros [?|(j & wj & Hj & Ht)]; [by left|right].
    apply list_lookup_fmap_Some in Hj as (w0 & -> & Hj).
    rewrite held_task_wake in Ht. eauto.
  - intros [?|(j & wj & Hj & Ht)]; [by left|right].
    exists j, (wake wj). rewrite list_lookup_fmap, Hj, held_task_wake. done.
Qed.

Lemma wake_step_shape i s s' :
  wake_step i s = Some s' →
  ∃ w, threads_ s !! i = Some w ∧ pc w = L27_blocked ∧
       s' = set_worker i (set_pc L27_woken w) s.
Proof.
  unfold wake_step. destruct (threads_ s !! i) as [w|] eqn:Hi; [simpl|done].
  unfold is_blocked, wake. destruct (pc w) eqn:Hpc; try done.
  intros [= <-]. eauto.
Qed.

Lemma live_wake_step i s s' t :
  wake_step i s = Some s' → live s' t ↔ live s t.
Proof.
  intros (w & Hi & Hpc & ->)%wake_step_shape.
  apply (live_same_hands _ _ i w (set_pc L27_woken w)); try done.
  unfold held_task. simpl. by rewrite Hpc.
Qed.

Lemma live_notify_one target s s' t :
  notify_one target s = Some s' → live s' t ↔ live s t.
Proof.
  destruct target as [i|]; simpl; [apply live_wake_step|].
  case_match; [|done]. by intros [= <-].
Qed.

(** *** Channels hold what the callables compute *)

Lemma agree_same ρ s s' :
  agree ρ s → (∀ t, live s' t → live s t) → channels s' = channels s →
  agree ρ s'.
Proof.
  intros [Hl Hlive Hc] Hsub Hch. split; rewrite ?Hch; [done| |done].
  intros t Ht. by apply Hlive, Hsub.
Qed.

Lemma worker_step_agree ρ i s s' :
  pool_inv s → agree ρ s → worker_step i s = Some s' → agree ρ s'.
Proof.
  intros Hinv Hag Hstep.
  destruct (worker_step_effect i s s' Hinv Hstep)
    as (w & w' & Hi & Hth & _ & Heff).
  destruct Heff as [Hq Hc Hh _|_ _ Hq0 _ Hq Hc Hh Hret|t Hq Hc Hh Hh' _
                   |t Hq Hh Hh' Hc Hlt _].
  - apply (agree_same ρ s); [done| |done].
    intros t. by rewrite (live_same_hands s s' i w w').
  - apply (agree_same ρ s); [done| |done].
    intros t. rewrite (live_insert s s' i w w'), (live_split s i w) by done.
    rewrite Hq, Hq0. unfold held_task at 1. rewrite Hret.
    intros [?|[?|?]]; [by left|done|by eauto].
  - apply (agree_same ρ s); [done| |done].
    intros t'. rewrite (live_insert s s' i w w'), (live_split s i w) by done.
    rewrite Hq, Hh'. intros [?|[[= <-]|?]]; [left; by right|left; by left|eauto].
  - destruct Hag as [Hl Hlive Hchan].
    assert (∀ t', live s' t' → live s t') as Hsub.
    { intros t'. rewrite (live_insert s s' i w w'), (live_split s i w) by done.
      rewrite Hq, Hh'. intros [?|[?|?]]; [by left|done|eauto]. }
    split.
    + by rewrite Hc, length_insert.
    + intros t' Ht'. by apply Hlive, Hsub.
    + intros h c. rewrite Hc.
      intros [(<- & <- & _)|(_ & Hh0)]%list_lookup_insert_Some; [|by eauto].
      right. rewrite (Hlive t); [done|].
      apply (live_split s i w); [done|]. right. by left.
Qed.

Lemma Enqueue_agree ρ f a target s s' h :
  pool_inv s → agree ρ s → Enqueue f a target s = Some (s', h) →
  h = length ρ ∧ agree (ρ ++ [f a]) s'.
Proof.
  intros Hinv [Hl Hlive Hchan]. unfold Enqueue.
  destruct (m_task_ s) eqn:Hm; [done|]. simpl.
  destruct (notify_one target _) as [s3|] eqn:Hn; [simpl|done].
  intros [= <- <-]. split; [done|].
  pose proof (notify_one_fields _ _ _ Hn) as (_ & _ & _ & Hc & _).
  simpl in Hc. split.
  - rewrite Hc, !length_app. simpl. lia.
  - intros t. rewrite (live_notify_one _ _ _ _ Hn). unfold live at 1. simpl.
    intros [[Ht|Ht%list_elem_of_singleton]%elem_of_app|Ht].
    + specialize (Hlive t (or_introl Ht)).
      rewrite lookup_app_l; [done|]. by eapply lookup_lt_Some.
    + subst t. unfold result_of. simpl. rewrite <- Hl.
      by rewrite lookup_app_r, Nat.sub_diag by lia.
    + specialize (Hlive t (or_intror Ht)).
      rewrite lookup_app_l; [done|]. by eapply lookup_lt_Some.
  - intros k c. rewrite Hc.
    intros [Hk|(_ & Hk)]%lookup_app_Some.
    + destruct (Hchan _ _ Hk) as [?|Hr]; [by left|right].
      rewrite lookup_app_l; [done|].
      rewrite Hl. by eapply lookup_lt_Some.
    + left. destruct (k - length (channels s)) as [|]; simpl in Hk; [|done].
      congruence.
Qed.

Lemma dtor_step_agree ρ s s' :
  agree ρ s → dtor_step s = Some s' → agree ρ s'.
Proof.
  intros Hag. unfold dtor_step.
  destruct (dtor s) eqn:Hpc; try done;
    try (intros [= <-]; by apply (agree_same ρ s)).
  - destruct (m_task_ s); [done|]. intros [= <-]. by apply (agree_same ρ s).
  - intros [= <-]. apply (agree_same ρ s); [done| |done].
    intros t. rewrite live_notify_all. done.
  - destruct (threads_ s !! j) as [w|]; [destruct (is_returned w)|];
      try done; intros [= <-]; by apply (agree_same ρ s).
Qed.

Lemma step_agree ρ s l s' :
  pool_inv s → agree ρ s → step s l = Some s' →
  ∃ ρ', ρ `prefix_of` ρ' ∧ agree ρ' s'.
Proof.
  intros Hinv Hag. destruct l as [i|i|f a target|]; simpl.
  - intros Hs. exists ρ. split; [done|]. by eapply worker_step_agree.
  - intros Hs. exists ρ. split; [done|]. apply (agree_same ρ s); [done|..].
    + intros t. by rewrite (live_wake_step i s s').
    + apply wake_step_shape in Hs as (w & _ & _ & ->). done.
  - destruct (Enqueue f a target s) as [[s1 h]|] eqn:He; [simpl|done].
    intros [= <-]. exists (ρ ++ [f a]). split; [by apply prefix_app_r|].
    by eapply Enqueue_agree.
  - intros Hs. exists ρ. split; [done|]. by eapply dtor_step_agree.
Qed.

Lemma run_agree ρ tr s s' :
  pool_inv s → agree ρ s → run s tr = Some s' →
  ∃ ρ', ρ `prefix_of` ρ' ∧ agree ρ' s'.
Proof.
  revert ρ s. induction tr as [|l tr IH]; intros ρ s Hinv Hag; simpl.
  - intros [= <-]. by exists ρ.
  - destruct (step s l) as [s1|] eqn:Hs; [simpl|done]. intros Hrun.
    destruct (step_agree _ _ _ _ Hinv Hag Hs) as (ρ1 & Hp1 & Hag1).
    destruct (IH ρ1 s1 (step_inv _ _ _ Hinv Hs) Hag1 Hrun) as (ρ2 & Hp2 & Hag2).
    exists ρ2. split; [by etrans|done].
Qed.

Lemma ctor_agree n st sp s :
  ThreadPool_ctor n st sp = Constructed s → agree [] s.
Proof.
  unfold ThreadPool_ctor. case_match; [done|]. intros [= <-].
  pose proof (spawn_fields n (member_init n st sp)) as
    (_ & _ & Hq & _ & _ & _ & Hc & _).
  pose proof (spawn_threads n (member_init n st sp)) as Hth. simpl in *.
  split.
  - by rewrite Hc.
  - intros t [Ht|(j & wj & Hj & Ht)].
    + rewrite Hq in Ht. by apply elem_of_nil in Ht.
    + rewrite Hth in Hj. apply lookup_replicate_1 in Hj as [-> _]. done.
  - intros h c. by rewrite Hc.
Qed.

(** *** Draining the queue *)

Lemma to_channel_not_pending (o : outcome Val Exn) : to_channel o ≠ Pending.
Proof. by destruct o. Qed.

Lemma some_returned_insert s s' i w w' :
  threads_ s !! i = Some w → threads_ s' = <[i:=w']> (threads_ s) →
  pc w' ≠ Returned → some_returned s' → some_returned s.
Proof.
  intros Hi Hth Hne (j & wj & Hj & Hr). rewrite Hth in Hj.
  apply list_lookup_insert_Some in Hj as [(-> & <- & ?)|(? & Hj)]; [done|].
  by exists j, wj.
Qed.

Lemma some_returned_notify_all s : some_returned (notify_all s) → some_returned s.
Proof.
  intros (j & wj & Hj & Hr). simpl in Hj.
  apply list_lookup_fmap_Some in Hj as (w0 & -> & Hj).
  apply (proj1 (wake_returned w0)) in Hr. by exists j, w0.
Qed.

Lemma some_returned_notify_one target s s' :
  notify_one target s = Some s' → some_returned s' → some_returned s.
Proof.
  destruct target as [i|]; simpl.
  - intros (w & Hi & Hpc & ->)%wake_step_shape.
    by apply (some_returned_insert s _ i w (set_pc L27_woken w)).
  - case_match; [|done]. by intros [= <-].
Qed.

Lemma tracked_same Q s s' :
  tracked Q s → (∀ t, live s t → live s' t) →
  channels s' = channels s → tracked Q s'.
Proof.
  intros [Hl Ho] Hlive Hc. split.
  - intros t Ht. destruct (Hl t Ht) as [?|?]; [left; by apply Hlive|right].
    unfold resolved in *. by rewrite Hc.
  - intros t Ht. rewrite Hc. by apply Ho.
Qed.

Lemma drained_same Q s s' :
  drained Q s → (some_returned s' → some_returned s) →
  tasks_ s' = tasks_ s → drained Q s'.
Proof. intros Hg Hret Hq Hr t Ht. rewrite Hq. by apply Hg; [apply Hret|]. Qed.

Lemma worker_step_tracked Q i s s' :
  pool_inv s → tracked Q s → worker_step i s = Some s' → tracked Q s'.
Proof.
  intros Hinv Hdr Hstep.
  destruct (worker_step_effect i s s' Hinv Hstep)
    as (w & w' & Hi & Hth & _ & Heff).
  destruct Heff as [Hq Hc Hh Hnr|_ _ Hq0 _ Hq Hc Hh Hret|t Hq Hc Hh Hh' Hnr
                   |t Hq Hh Hh' Hc Hlt Hnr].
  - apply (tracked_same Q s); try done.
    intros t. by rewrite (live_same_hands s s' i w w').
  - apply (tracked_same Q s); try done. intros t.
    rewrite (live_insert s s' i w w'), (live_split s i w) by done.
    rewrite Hq0, Hh. intros [?%elem_of_nil|[?|?]]; [done..|by eauto].
  - apply (tracked_same Q s); try done. intros t'.
    rewrite (live_insert s s' i w w'), (live_split s i w) by done.
    rewrite Hq, Hh, Hh'.
    intros [[->|?]%elem_of_cons|[?|?]]; [by eauto|by eauto|done|by eauto].
  - destruct Hdr as [Hl Ho].
    assert (resolved s' (t_chan t)) as Hnow.
    { unfold resolved. rewrite Hc. eexists.
      rewrite list_lookup_insert_eq by done.
      split; [done|]. apply to_channel_not_pending. }
    assert (∀ h, resolved s h → resolved s' h) as Hmono.
    { intros h (c & Hh0 & Hne).
      destruct (decide (t_chan t = h)) as [<-|]; [done|].
      exists c. by rewrite Hc, list_lookup_insert_ne. }
    split.
    + intros t' Ht'. destruct (Hl t' Ht') as [Hlv|Hres]; [|right; by apply Hmono].
      revert Hlv.
      rewrite (live_insert s s' i w w'), (live_split s i w) by done.
      rewrite Hq, Hh, Hh'. intros [?|[[= ->]|?]]; [by left; left| |by eauto].
      by right.
    + intros t' Ht'. rewrite Hc, length_insert. by apply Ho.
Qed.

Lemma worker_step_drained Q i s s' :
  pool_inv s → drained Q s → worker_step i s = Some s' → drained Q s'.
Proof.
  intros Hinv Hg Hstep.
  destruct (worker_step_effect i s s' Hinv Hstep)
    as (w & w' & Hi & Hth & _ & Heff).
  destruct Heff as [Hq Hc Hh Hnr|_ _ Hq0 _ Hq Hc Hh Hret|t Hq Hc Hh Hh' Hnr
                   |t Hq Hh Hh' Hc Hlt Hnr].
  - apply (drained_same Q s); try done.
    by apply (some_returned_insert s s' i w w').
  - intros _ t _. rewrite Hq. apply not_elem_of_nil.
  - intros Hr t' Ht' Hin.
    apply (Hg (some_returned_insert s s' i w w' Hi Hth Hnr Hr) t' Ht').
    rewrite Hq. by right.
  - apply (drained_same Q s); try done.
    by apply (some_returned_insert s s' i w w').
Qed.

Lemma Enqueue_tracked Q f a target s s' h :
  tracked Q s → Enqueue f a target s = Some (s', h) → tracked Q s'.
Proof.
  intros [Hl Ho]. unfold Enqueue.
  destruct (m_task_ s) eqn:Hm; [done|]. simpl.
  destruct (notify_one target _) as [s3|] eqn:Hn; [simpl|done].
  intros [= <- <-].
  pose proof (notify_one_fields _ _ _ Hn) as (_ & Hq & _ & Hc & _).
  simpl in Hc, Hq. split.
  - intros t Ht. destruct (Hl t Ht) as [Hlv|(c & Hres & Hne)].
    + left. apply (live_notify_one _ _ _ _ Hn). unfold live in *. simpl.
      destruct Hlv as [?|?]; [left|by right]. apply elem_of_app. by left.
    + right. exists c. rewrite Hc. split; [|done].
      apply lookup_app_l_Some. done.
  - intros t Ht. rewrite Hc, length_app. specialize (Ho t Ht). lia.
Qed.

Lemma Enqueue_drained Q f a target s s' h :
  tracked Q s → drained Q s → Enqueue f a target s = Some (s', h) →
  drained Q s'.
Proof.
  intros [_ Ho] Hg. unfold Enqueue.
  destruct (m_task_ s) eqn:Hm; [done|]. simpl.
  destruct (notify_one target _) as [s3|] eqn:Hn; [simpl|done].
  intros [= <- <-].
  pose proof (notify_one_fields _ _ _ Hn) as (_ & Hq & _ & Hc & _).
  simpl in Hc, Hq.
  intros Hr t Ht. rewrite Hq.
  apply (some_returned_notify_one _ _ _ Hn) in Hr.
  intros [Hin|Hin%list_elem_of_singleton]%elem_of_app.
  - by apply (Hg Hr t Ht).
  - specialize (Ho t Ht). subst t. simpl in Ho. lia.
Qed.

Lemma dtor_step_tracked Q s s' :
  tracked Q s → dtor_step s = Some s' → tracked Q s'.
Proof.
  intros Hdr. unfold dtor_step.
  destruct (dtor s) eqn:Hpc; try done;
    try (intros [= <-]; by apply (tracked_same Q s)).
  - destruct (m_task_ s); [done|]. intros [= <-]. by apply (tracked_same Q s).
  - intros [= <-]. apply (tracked_same Q s); try done.
    intros t. by rewrite live_notify_all.
  - destruct (threads_ s !! j) as [w|]; [destruct (is_returned w)|];
      try done; intros [= <-]; by apply (tracked_same Q s).
Qed.

Lemma dtor_step_drained Q s s' :
  drained Q s → dtor_step s = Some s' → drained Q s'.
Proof.
  intros Hdr. unfold dtor_step.
  destruct (dtor s) eqn:Hpc; try done;
    try (intros [= <-]; by apply (drained_same Q s)).
  - destruct (m_task_ s); [done|]. intros [= <-]. by apply (drained_same Q s).
  - intros [= <-]. apply (drained_same Q s); try done.
    apply some_returned_notify_all.
  - destruct (threads_ s !! j) as [w|]; [destruct (is_returned w)|];
      try done; intros [= <-]; by apply (drained_same Q s).
Qed.

Lemma step_tracked Q s l s' :
  pool_inv s → tracked Q s → step s l = Some s' → tracked Q s'.
Proof.
  intros Hinv Hdr. destruct l as [i|i|f a target|]; simpl.
  - by apply worker_step_tracked.
  - intros Hs. apply (tracked_same Q s); try done.
    + intros t. by rewrite (live_wake_step i s s').
    + apply wake_step_shape in Hs as (w & _ & _ & ->). done.
  - destruct (Enqueue f a target s) as [[s1 h]|] eqn:He; [simpl|done].
    intros [= <-]. by eapply Enqueue_tracked.
  - by apply dtor_step_tracked.
Qed.

Lemma step_drained Q s l s' :
  pool_inv s → tracked Q s → drained Q s → step s l = Some s' → drained Q s'.
Proof.
  intros Hinv Htr Hdr. destruct l as [i|i|f a target|]; simpl.
  - by apply worker_step_drained.
  - intros Hs. apply (drained_same Q s); try done.
    + by apply (some_returned_notify_one (Some i)).
    + apply wake_step_shape in Hs as (w & _ & _ & ->). done.
  - destruct (Enqueue f a target s) as [[s1 h]|] eqn:He; [simpl|done].
    intros [= <-]. by eapply Enqueue_drained.
  - by apply dtor_step_drained.
Qed.

Lemma run_tracked Q tr s s' :
  pool_inv s → tracked Q s → run s tr = Some s' → tracked Q s'.
Proof.
  revert s. induction tr as [|l tr IH]; intros s Hinv Hdr; simpl.
  - by intros [= <-].
  - destruct (step s l) as [s1|] eqn:Hs; [simpl|done].
    apply IH; [by eapply step_inv|by eapply step_tracked].
Qed.

Lemma run_drained Q tr s s' :
  pool_inv s → tracked Q s → drained Q s → run s tr = Some s' → drained Q s'.
Proof.
  revert s. induction tr as [|l tr IH]; intros s Hinv Htr Hdr; simpl.
  - by intros [= <-].
  - destruct (step s l) as [s1|] eqn:Hs; [simpl|done].
    apply IH; [by eapply step_inv|by eapply step_tracked
              |by eapply step_drained].
Qed.

(** *** Reachable states *)

Lemma reachable_inv n st sp p0 tr s :
  ThreadPool_ctor n st sp = Constructed p0 → run p0 tr = Some s → pool_inv s.
Proof. intros Hc Hr. eapply run_inv; [by eapply ctor_inv|done]. Qed.

Lemma reachable_agree n st sp p0 tr s :
  ThreadPool_ctor n st sp = Constructed p0 → run p0 tr = Some s →
  ∃ ρ, agree ρ s.
Proof.
  intros Hc Hr.
  destruct (run_agree [] tr p0 s) as (ρ & _ & Hag);
    [by eapply ctor_inv|by eapply ctor_agree|done|by exists ρ].
Qed.

Lemma ctor_nonempty n st sp p0 :
  ThreadPool_ctor n st sp = Constructed p0 → 0 < num_threads_ p0.
Proof.
  unfold ThreadPool_ctor. destruct (n =? 0) eqn:Hn; [done|]. intros [= <-].
  destruct (spawn_fields n (member_init n st sp)) as (-> & _). simpl.
  apply Nat.eqb_neq in Hn. lia.
Qed.

Lemma step_num_threads s l s' : step s l = Some s' → num_threads_ s' = num_threads_ s.
Proof.
  destruct l as [i|i|f a target|]; simpl.
  - unfold worker_step. destruct (threads_ s !! i) as [w|]; [simpl|done].
    repeat case_match; try done; by intros [= <-].
  - by intros (w & _ & _ & ->)%wake_step_shape.
  - unfold Enqueue. destruct (m_task_ s); [done|]. simpl.
    destruct (notify_one target _) as [s3|] eqn:Hn; [simpl|done].
    intros [= <-]. destruct target as [i|]; simpl in Hn.
    + by apply wake_step_shape in Hn as (w & _ & _ & ->).
    + case_match; [|done]. by injection Hn as <-.
  - unfold dtor_step. repeat case_match; try done; by intros [= <-].
Qed.

Lemma run_num_threads tr s s' : run s tr = Some s' → num_threads_ s' = num_threads_ s.
Proof.
  revert s. induction tr as [|l tr IH]; intros s; simpl.
  - by intros [= <-].
  - destruct (step s l) as [s1|] eqn:Hs; [simpl|done]. intros Hr.
    rewrite (IH _ Hr). by eapply step_num_threads.
Qed.


(** *** Leaving the loop *)

Lemma exit_observed s l s' i w w' :
  pool_inv s → step s l = Some s' →
  threads_ s !! i = Some w → threads_ s' !! i = Some w' →
  pc w ≠ Returned → pc w' = Returned →
  l = LWorker i ∧ pc w = L28 ∧ m_task_ s = Some (OWorker i) ∧
  is_terminated_ s = true ∧ tasks_ s = [].
Proof.
  intros Hinv Hstep Hi Hi' Hne Hret.
  assert (∀ j w0, threads_ s !! j = Some w0 → pc w0 = L27_blocked →
            s' = set_worker j (set_pc L27_woken w0) s → False) as Hwake.
  { intros j w0 Hj Hpc ->. simpl in Hi'.
    apply list_lookup_insert_Some in Hi' as [(-> & <- & _)|(_ & Hi')];
      [done|congruence]. }
  destruct l as [j|j|f a target|]; simpl in Hstep.
  - destruct (worker_step_effect j s s' Hinv Hstep)
      as (w0 & w0' & Hj & Hth & _ & Heff).
    rewrite Hth in Hi'.
    apply list_lookup_insert_Some in Hi' as [(-> & <- & _)|(_ & Hi')];
      [|congruence].
    assert (w0 = w) as -> by congruence.
    destruct Heff; done.
  - apply wake_step_shape in Hstep as (w0 & Hj & Hpc & ->). by destruct (Hwake j w0).
  - unfold Enqueue in Hstep. destruct (m_task_ s); [done|]. simpl in Hstep.
    destruct (notify_one target _) as [s3|] eqn:Hn; [simpl in Hstep|done].
    injection Hstep as <-. destruct target as [j|]; simpl in Hn.
    + apply wake_step_shape in Hn as (w0 & Hj & Hpc & ->). simpl in *.
      apply list_lookup_insert_Some in Hi' as [(-> & <- & _)|(_ & Hi')];
        [done|congruence].
    + case_match; [|done]. injection Hn as <-. simpl in *. congruence.
  - unfold dtor_step in Hstep.
    destruct (dtor s) eqn:Hpc; try done;
      try (injection Hstep as <-; simpl in *; congruence).
    + destruct (m_task_ s); [done|]. injection Hstep as <-. simpl in *.
      congruence.
    + injection Hstep as <-. simpl in Hi'.
      apply list_lookup_fmap_Some in Hi' as (w0 & -> & Hi0).
      apply (proj1 (wake_returned w0)) in Hret. congruence.
    + destruct (threads_ s !! j) as [w0|]; [destruct (is_returned w0)|];
        try done; injection Hstep as <-; simpl in *; congruence.
Qed.





(** *** The claims on the pool *)



(** C4: in a reachable state a step takes a worker out of its loop only at
    line 28, holding the lock, with the termination flag set and the queue
    empty.  And when teardown begins in a reachable state [s0] and the
    destructor has returned in [s1], every worker has returned and every
    task that was queued in [s0] is no longer queued and has written the
    outcome of its callable into its channel. *)
Theorem teardown_drains_queue n st sp p0 tr s0 :
  ThreadPool_ctor n st sp = Constructed p0 → run p0 tr = Some s0 →
  (∀ l s1 i w w',
     step s0 l = Some s1 →
     threads_ s0 !! i = Some w → threads_ s1 !! i = Some w' →
     pc w ≠ Returned → pc w' = Returned →
     l = LWorker i ∧ pc w = L28 ∧ m_task_ s0 = Some (OWorker i) ∧
     is_terminated_ s0 = true ∧ tasks_ s0 = []) ∧
  (dtor s0 = DAlive →
   ∀ tr' s1 t,
     run s0 tr' = Some s1 → dtor s1 = DDone → t ∈ tasks_ s0 →
     (∀ i w, threads_ s1 !! i = Some w → pc w = Returned) ∧
     (t ∉ tasks_ s1) ∧
     channels s1 !! t_chan t = Some (to_channel (result_of t))).
Proof.
  intros Hc Hr.
  pose proof (reachable_inv _ _ _ _ _ _ Hc Hr) as Hinv.
  split; [intros; by eapply exit_observed|].
  intros Halive tr' s1 t Hr' Hdone Ht.
  destruct (reachable_agree _ _ _ _ _ _ Hc Hr) as [ρ Hag].
  destruct (run_agree _ _ _ _ Hinv Hag Hr') as (ρ1 & Hpre & Hag1).
  pose proof (run_inv _ _ _ Hinv Hr') as Hinv1.
  assert (tracked (tasks_ s0) s0) as Htr.
  { split; intros t' Ht'; [by left; left|by apply (inv_queue _ Hinv)]. }
  assert (drained (tasks_ s0) s0) as Hdr.
  { intros (i & w & Hi & Hpc). exfalso.
    pose proof (inv_workers _ Hinv i w Hi) as Hw. unfold worker_inv in Hw.
    rewrite Hpc in Hw. pose proof (inv_dtor _ Hinv) as Hd.
    unfold dtor_inv in Hd. rewrite Halive in Hd.
    destruct Hw as (_ & _ & Hw), Hd as [Hd _]. congruence. }
  pose proof (run_tracked _ _ _ _ Hinv Htr Hr') as [Hl1 Ho1].
  pose proof (run_drained _ _ _ _ Hinv Htr Hdr Hr') as Hdr1.
  pose proof (inv_dtor _ Hinv1) as Hd1. unfold dtor_inv in Hd1.
  rewrite Hdone in Hd1. destruct Hd1 as (_ & _ & Hall).
  assert (some_returned s1) as Hsome.
  { pose proof (ctor_nonempty _ _ _ _ Hc) as Hn.
    rewrite <- (run_num_threads _ _ _ Hr), <- (run_num_threads _ _ _ Hr') in Hn.
    rewrite <- (inv_size _ Hinv1) in Hn.
    destruct (lookup_lt_is_Some_2 _ _ Hn) as [w Hw]. exists 0, w. eauto. }
  split_and!; [done|by apply Hdr1|].
  destruct (Hl1 t Ht) as [[Hq|(i & w & Hi & Hheld)]|(c & Hch & Hne)].
  - by destruct (Hdr1 Hsome t Ht).
  - specialize (Hall i w Hi). unfold held_task in Hheld. by rewrite Hall in Hheld.
  - destruct (agree_chan _ _ Hag1 _ _ Hch) as [->|Hv]; [done|].
    rewrite Hch, <- Hv.
    rewrite (prefix_lookup_Some _ _ _ _ (agree_live _ _ Hag t (or_introl Ht)) Hpre).
    done.
Qed.

(** C5: constructing with a thread count of 0 throws
    [std::runtime_error("The number of threads must be larger than 0.")]
    out of the constructor; the object left behind at the throw has no
    thread, and no pool is constructed. *)
Theorem ctor_zero_threads_throws (st sp : bool) :
  ThreadPool_ctor (Arg:=Arg) (Val:=Val) (Exn:=Exn) 0 st sp
  = CtorThrows (runtime_error "The number of threads must be larger than 0.")
               (member_init 0 st sp) ∧
  threads_ (member_init (Arg:=Arg) (Val:=Val) (Exn:=Exn) 0 st sp) = [] ∧
  ∀ p, ThreadPool_ctor (Arg:=Arg) (Val:=Val) (Exn:=Exn) 0 st sp ≠ Constructed p.
Proof. done. Qed.

(** C6: in every reachable state a worker that stands at the call of line 35
    does not own [m_task_]; the instruction before it, line 33, is the one
    that released the mutex. *)
Theorem task_runs_without_lock n st sp p0 tr s i w t :
  ThreadPool_ctor n st sp = Constructed p0 → run p0 tr = Some s →
  threads_ s !! i = Some w →
  (pc w = L35 t → m_task_ s ≠ Some (OWorker i)) ∧
  (pc w = L33 t →
   m_task_ s = Some (OWorker i) ∧
   ∃ s', worker_step i s = Some s' ∧ m_task_ s' = None ∧
         threads_ s' !! i = Some (set_pc (L35 t) w)).
Proof.
  intros Hc Hr Hi.
  pose proof (reachable_inv _ _ _ _ _ _ Hc Hr) as [Hws _ _ _].
  specialize (Hws i w Hi). unfold worker_inv in Hws. split; intros Hpc.
  - rewrite Hpc in Hws. naive_solver.
  - rewrite Hpc in Hws. split; [naive_solver|].
    eexists. unfold worker_step. rewrite Hi. simpl. rewrite Hpc.
    split_and!; [done..|]. simpl. apply list_lookup_insert_eq.
    by eapply lookup_lt_Some.
Qed.

(** C8, amended: the default constructor hands the reported hardware
    concurrency to the main constructor as it is.  When 0 is reported it
    throws the same [std::runtime_error] and no thread is started; otherwise
    it constructs a pool of that many workers. *)
Theorem default_ctor_uses_hardware_concurrency (hardware_concurrency : nat)
    (st sp : bool) :
  match ThreadPool_default_ctor (Arg:=Arg) (Val:=Val) (Exn:=Exn)
          hardware_concurrency st sp with
  | CtorThrows e this =>
      hardware_concurrency = 0 ∧
      e = runtime_error "The number of threads must be larger than 0." ∧
      threads_ this = []
  | Constructed p =>
      1 ≤ hardware_concurrency ∧
      num_threads_ p = hardware_concurrency ∧
      length (threads_ p) = hardware_concurrency
  end.
Proof.
  unfold ThreadPool_default_ctor, ThreadPool_ctor.
  destruct (hardware_concurrency =? 0) eqn:Hn.
  - apply Nat.eqb_eq in Hn. by subst.
  - apply Nat.eqb_neq in Hn. split_and!; [lia| |].
    + by destruct (spawn_fields hardware_concurrency
                     (member_init hardware_concurrency st sp)) as (-> & _).
    + rewrite spawn_threads. simpl. by rewrite length_replicate.
Qed.

(** C10: in every reachable state a worker that stands at the pop of line 31
    finds the queue non-empty, and no worker has ever popped from an empty
    queue. *)
Theorem pop_only_when_nonempty n st sp p0 tr s i w :
  ThreadPool_ctor n st sp = Constructed p0 → run p0 tr = Some s →
  threads_ s !! i = Some w →
  (pc w = L31 → tasks_ s ≠ [] ∧ m_task_ s = Some (OWorker i)) ∧
  (pc w = L28 → wait_pred s = true ∧ m_task_ s = Some (OWorker i)) ∧
  pc w ≠ Undefined.
Proof.
  intros Hc Hr Hi.
  pose proof (reachable_inv _ _ _ _ _ _ Hc Hr) as [Hws _ _ _].
  specialize (Hws i w Hi). unfold worker_inv in Hws. split_and!.
  - intros Hpc. rewrite Hpc in Hws. naive_solver.
  - intros Hpc. rewrite Hpc in Hws. destruct Hws as (_ & Hm & Hq).
    split; [|done]. unfold wait_pred. destruct Hq as [Hq| ->].
    + rewrite bool_decide_eq_false_2 by done. done.
    + apply orb_true_r.
  - intros Hpc. rewrite Hpc in Hws. by destruct Hws.
Qed.

(** The stop hook is dead code: in no reachable state has a worker run it
    or reached line 38. *)
Lemma stop_hook_never_runs n st sp p0 tr s i w :
  ThreadPool_ctor n st sp = Constructed p0 → run p0 tr = Some s →
  threads_ s !! i = Some w → stop_calls w = 0 ∧ pc w ≠ L38.
Proof.
  intros Hc Hr Hi.
  pose proof (reachable_inv _ _ _ _ _ _ Hc Hr) as [Hws _ _ _].
  specialize (Hws i w Hi). unfold worker_inv in Hws.
  split; [naive_solver|]. intros Hpc. rewrite Hpc in Hws. by destruct Hws.
Qed.

(** *** The owner of the mutex *)

Lemma step_threads_length s l s' :
  step s l = Some s' → length (threads_ s') = length (threads_ s).
Proof.
  destruct l as [i|i|f a target|]; simpl.
  - unfold worker_step. destruct (threads_ s !! i) as [w|]; [simpl|done].
    repeat case_match; try done; intros [= <-]; simpl;
      by rewrite length_insert.
  - intros (w & _ & _ & ->)%wake_step_shape. simpl. by rewrite length_insert.
  - unfold Enqueue. destruct (m_task_ s); [done|]. simpl.
    destruct (notify_one target _) as [s3|] eqn:Hn; [simpl|done].
    intros [= <-]. destruct target as [i|]; simpl in Hn.
    + apply wake_step_shape in Hn as (w & _ & _ & ->). simpl.
      by rewrite length_insert.
    + case_match; [|done]. by injection Hn as <-.
  - unfold dtor_step. repeat case_match; try done; intros [= <-]; simpl;
      by rewrite ?length_fmap.
Qed.

Lemma step_owner s l s' : owner_inv s → step s l = Some s' → owner_inv s'.
Proof.
  intros Ho Hs j. rewrite (step_threads_length _ _ _ Hs). revert Hs.
  destruct l as [i|i|f a target|]; simpl.
  - unfold worker_step. destruct (threads_ s !! i) as [w|] eqn:Hi; [simpl|done].
    apply lookup_lt_Some in Hi.
    repeat case_match; try done; intros [= <-]; simpl; try apply Ho;
      try done; by intros [= <-].
  - intros (w & _ & _ & ->)%wake_step_shape. apply Ho.
  - intros Hs. destruct (Enqueue f a target s) as [[s1 h]|] eqn:He; [|done].
    simpl in Hs. injection Hs as <-. revert He. unfold Enqueue.
    destruct (m_task_ s) eqn:Hm; [done|]. simpl.
    destruct (notify_one target _) as [s3|] eqn:Hn; [simpl|done].
    intros [= <- <-].
    destruct (notify_one_fields _ _ _ Hn) as (-> & _). simpl.
    by rewrite Hm.
  - unfold dtor_step. repeat case_match; try done; intros [= <-]; simpl;
      try apply Ho; done.
Qed.

Lemma run_owner tr s s' : owner_inv s → run s tr = Some s' → owner_inv s'.
Proof.
  revert s. induction tr as [|l tr IH]; intros s Ho; simpl.
  - by intros [= <-].
  - destruct (step s l) as [s1|] eqn:Hs; [simpl|done].
    apply IH. by eapply step_owner.
Qed.

Lemma ctor_owner n st sp p0 :
  ThreadPool_ctor n st sp = Constructed p0 → owner_inv p0.
Proof.
  unfold ThreadPool_ctor. case_match; [done|]. intros [= <-] i Hm.
  by rewrite (proj1 (proj2 (proj2 (proj2 (spawn_fields _ _))))) in Hm.
Qed.

(** *** The hooks and the flag *)

Lemma step_hooks s l s' :
  step s l = Some s' →
  on_thread_start s' = on_thread_start s ∧ on_thread_stop s' = on_thread_stop s.
Proof.
  destruct l as [i|i|f a target|]; simpl.
  - unfold worker_step. destruct (threads_ s !! i) as [w|]; [simpl|done].
    repeat case_match; try done; by intros [= <-].
  - by intros (w & _ & _ & ->)%wake_step_shape.
  - unfold Enqueue. destruct (m_task_ s); [done|]. simpl.
    destruct (notify_one target _) as [s3|] eqn:Hn; [simpl|done].
    intros [= <-]. destruct target as [i|]; simpl in Hn.
    + by apply wake_step_shape in Hn as (w & _ & _ & ->).
    + case_match; [|done]. by injection Hn as <-.
  - unfold dtor_step. repeat case_match; try done; by intros [= <-].
Qed.

Lemma wake_start_calls w :
  start_calls (wake w) = start_calls w ∧
  ∀ b, expected_start_calls b (pc (wake w)) = expected_start_calls b (pc w).
Proof.
  unfold wake. destruct (pc w) eqn:Hpc; simpl; rewrite ?Hpc; done.
Qed.

Lemma step_start_hook s l s' :
  start_hook_inv s → step s l = Some s' → start_hook_inv s'.
Proof.
  intros Hinv Hs j wj. destruct (step_hooks _ _ _ Hs) as [-> _]. revert Hs.
  assert (∀ i w, threads_ s !! i = Some w → pc w = L27_blocked →
            <[i:=set_pc L27_woken w]> (threads_ s) !! j = Some wj →
            start_calls wj = expected_start_calls (on_thread_start s) (pc wj))
    as Hwake.
  { intros i w Hi Hpc Hj.
    apply list_lookup_insert_Some in Hj as [(-> & <- & _)|(_ & Hj)];
      [|exact (Hinv _ _ Hj)].
    specialize (Hinv _ _ Hi). rewrite Hpc in Hinv. done. }
  destruct l as [i|i|f a target|]; simpl.
  - unfold worker_step. destruct (threads_ s !! i) as [w|] eqn:Hi; [simpl|done].
    specialize (Hinv i w Hi) as Hw.
    destruct (pc w) eqn:Hpc; repeat case_match; try done; intros [= <-];
      simpl; intros Hj;
      (apply list_lookup_insert_Some in Hj as [(-> & <- & _)|(_ & Hj)];
       [simpl in *; congruence|pose proof (Hinv _ _ Hj); congruence]).
  - intros (w & Hi & Hpc & ->)%wake_step_shape. simpl. by apply Hwake.
  - unfold Enqueue. destruct (m_task_ s); [done|]. simpl.
    destruct (notify_one target _) as [s3|] eqn:Hn; [simpl|done].
    intros [= <-]. destruct target as [i|]; simpl in Hn.
    + apply wake_step_shape in Hn as (w & Hi & Hpc & ->). simpl.
      by apply Hwake.
    + case_match; [|done]. injection Hn as <-. exact (Hinv j wj).
  - unfold dtor_step.
    destruct (dtor s) eqn:Hpc; repeat case_match; try done; intros [= <-];
      simpl; try exact (Hinv j wj).
    intros (w0 & -> & Hj)%list_lookup_fmap_Some.
    destruct (wake_start_calls w0) as [-> ->]. exact (Hinv _ _ Hj).
Qed.

Lemma run_start_hook tr s s' :
  start_hook_inv s → run s tr = Some s' → start_hook_inv s'.
Proof.
  revert s. induction tr as [|l tr IH]; intros s Hinv; simpl.
  - by intros [= <-].
  - destruct (step s l) as [s1|] eqn:Hs; [simpl|done].
    apply IH. by eapply step_start_hook.
Qed.

Lemma run_hooks tr s s' :
  run s tr = Some s' →
  on_thread_start s' = on_thread_start s ∧ on_thread_stop s' = on_thread_stop s.
Proof.
  revert s. induction tr as [|l tr IH]; intros s; simpl.
  - by intros [= <-].
  - destruct (step s l) as [s1|] eqn:Hs; [simpl|done]. intros Hr.
    destruct (IH _ Hr) as [-> ->]. by eapply step_hooks.
Qed.

Lemma step_flag_stable s l s' :
  step s l = Some s' → is_terminated_ s = true → is_terminated_ s' = true.
Proof.
  destruct l as [i|i|f a target|]; simpl.
  - unfold worker_step. destruct (threads_ s !! i) as [w|]; [simpl|done].
    repeat case_match; try done; by intros [= <-].
  - by intros (w & _ & _ & ->)%wake_step_shape.
  - unfold Enqueue. destruct (m_task_ s); [done|]. simpl.
    destruct (notify_one target _) as [s3|] eqn:Hn; [simpl|done].
    intros [= <-]. by destruct (notify_one_fields _ _ _ Hn) as (_ & _ & -> & _).
  - unfold dtor_step. repeat case_match; try done; by intros [= <-].
Qed.

Lemma run_flag_stable tr s s' :
  run s tr = Some s' → is_terminated_ s = true → is_terminated_ s' = true.
Proof.
  revert s. induction tr as [|l tr IH]; intros s; simpl.
  - by intros [= <-].
  - destruct (step s l) as [s1|] eqn:Hs; [simpl|done]. intros Hr Ht.
    apply (IH _ Hr). by eapply step_flag_stable.
Qed.

(** *** Going to sleep *)

Lemma step_blocks s l s' i w w' :
  step s l = Some s' →
  threads_ s !! i = Some w → threads_ s' !! i = Some w' →
  pc w ≠ L27_blocked → pc w' = L27_blocked →
  l = LWorker i ∧ pc w = L27 ∧ tasks_ s = [] ∧ is_terminated_ s = false ∧
  m_task_ s' = None.
Proof.
  intros Hs Hi Hi' Hne Hb.
  assert (∀ j w0, threads_ s !! j = Some w0 →
            <[j:=set_pc L27_woken w0]> (threads_ s) !! i = Some w' → False)
    as Hwake.
  { intros j w0 Hj Hl.
    apply list_lookup_insert_Some in Hl as [(-> & <- & _)|(_ & Hl)];
      [done|congruence]. }
  destruct l as [j|j|f a target|]; simpl in Hs.
  - unfold worker_step in Hs.
    destruct (threads_ s !! j) as [w0|] eqn:Hj; [simpl in Hs|done].
    destruct (decide (j = i)) as [->|Hji].
    + assert (w0 = w) as -> by congruence.
      assert (i < length (threads_ s)) as Hlt by (by eapply lookup_lt_Some).
      destruct (pc w) eqn:Hpc; simpl in Hs; repeat case_match; try done;
        injection Hs as <-; simpl in Hi';
        rewrite list_lookup_insert_eq in Hi' by done;
        injection Hi' as <-; simpl in Hb; try discriminate Hb.
      match goal with H : wait_pred s = false |- _ =>
        unfold wait_pred in H; apply orb_false_elim in H as [Hq Ht] end.
      apply negb_false_iff, bool_decide_eq_true in Hq. done.
    + assert (threads_ s' !! i = threads_ s !! i) as Heq; [|congruence].
      destruct (pc w0) eqn:Hpc; repeat case_match; try done;
        injection Hs as <-; simpl; by rewrite list_lookup_insert_ne.
  - apply wake_step_shape in Hs as (w0 & Hj & _ & ->). by destruct (Hwake j w0).
  - unfold Enqueue in Hs. destruct (m_task_ s); [done|]. simpl in Hs.
    destruct (notify_one target _) as [s3|] eqn:Hn; [simpl in Hs|done].
    injection Hs as <-. destruct target as [j|]; simpl in Hn.
    + apply wake_step_shape in Hn as (w0 & Hj & _ & ->).
      by destruct (Hwake j w0).
    + case_match; [|done]. injection Hn as <-. simpl in *. congruence.
  - unfold dtor_step in Hs.
    destruct (dtor s) eqn:Hpc; repeat case_match; try done;
      injection Hs as <-; simpl in *; try congruence.
    apply list_lookup_fmap_Some in Hi' as (w0 & -> & Hi0).
    assert (w0 = w) as -> by congruence.
    unfold wake in Hb. destruct (pc w) eqn:Hpcw; simpl in Hb; congruence.
Qed.

Lemma step_dtor_same s l s' :
  step s l = Some s' → l ≠ LDtor →
  dtor s' = dtor s ∧ is_terminated_ s' = is_terminated_ s.
Proof.
  destruct l as [i|i|f a target|]; simpl; [..|done].
  - unfold worker_step. destruct (threads_ s !! i) as [w0|]; [simpl|done].
    repeat case_match; try done; by intros [= <-].
  - by intros (w0 & Hj & Hpc & ->)%wake_step_shape.
  - unfold Enqueue. destruct (m_task_ s); [done|]. simpl.
    destruct (notify_one target _) as [s3|] eqn:Hn; [simpl|done].
    intros [= <-] _.
    by destruct (notify_one_fields _ _ _ Hn) as (_ & _ & -> & _ & ->).
Qed.

Lemma step_no_sleeper s l s' :
  pool_inv s → no_sleeper s → step s l = Some s' → no_sleeper s'.
Proof.
  intros Hinv Hns Hs.
  pose proof (inv_dtor _ Hinv) as Hd.
  assert (l = LDtor ∨ l ≠ LDtor) as [->|Hl] by (destruct l; eauto).
  - simpl in Hs. unfold dtor_step in Hs. unfold no_sleeper in *.
    destruct (dtor s) eqn:Hpc; repeat case_match; try done;
      injection Hs as <-; simpl in *; try done.
    intros i w (w0 & -> & Hi)%list_lookup_fmap_Some.
    unfold wake. destruct (pc w0) eqn:Hpcw; simpl; congruence.
  - destruct (step_dtor_same _ _ _ Hs Hl) as [Hd' Ht'].
    unfold no_sleeper, dtor_inv in *. rewrite Hd'.
    assert (is_terminated_ s = true →
            (∀ i w, threads_ s !! i = Some w → pc w ≠ L27_blocked) →
            ∀ i w', threads_ s' !! i = Some w' → pc w' ≠ L27_blocked) as Hkeep.
    { intros Ht Hall i w' Hi' Hb.
      assert (is_Some (threads_ s !! i)) as [w Hi].
      { apply lookup_lt_is_Some. rewrite <- (step_threads_length _ _ _ Hs).
        by eapply lookup_lt_Some. }
      destruct (step_blocks _ _ _ _ _ _ Hs Hi Hi' (Hall _ _ Hi) Hb)
        as (_ & _ & _ & Hf & _). congruence. }
    destruct (dtor s); try done; apply Hkeep; naive_solver.
Qed.

Lemma run_no_sleeper tr s s' :
  pool_inv s → no_sleeper s → run s tr = Some s' → no_sleeper s'.
Proof.
  revert s. induction tr as [|l tr IH]; intros s Hinv Hns; simpl.
  - by intros [= <-].
  - destruct (step s l) as [s1|] eqn:Hs; [simpl|done].
    apply IH; [by eapply step_inv|by eapply step_no_sleeper].
Qed.

(** *** Reaching a state *)

Lemma can_reach_here s (P : pool Arg Val Exn → Prop) : P s → can_reach s P.
Proof. intros HP. exists [], s. split_and!; [done|constructor|done]. Qed.

Lemma can_reach_step s l s1 (P : pool Arg Val Exn → Prop) :
  step s l = Some s1 → quiet l → can_reach s1 P → can_reach s P.
Proof.
  intros Hs Hq (tr & s' & Hr & Hf & HP). exists (l :: tr), s'.
  split_and!; [simpl; by rewrite Hs|by constructor|done].
Qed.


Lemma can_reach_mono s (Q P : pool Arg Val Exn → Prop) :
  can_reach s Q → (∀ s1, Q s1 → P s1) → can_reach s P.
Proof. intros (tr & s1 & Hr & Hf & HQ) H. exists tr, s1. eauto. Qed.

Lemma run_sound tr s s' : sound s → run s tr = Some s' → sound s'.
Proof.
  intros (Hinv & Ho & Hns) Hr. split_and!.
  - by eapply run_inv.
  - by eapply run_owner.
  - by eapply run_no_sleeper.
Qed.


(** *** A worker running alone *)




(** *** Leaving the critical section *)

Lemma release_step i s w :
  pool_inv s → m_task_ s = Some (OWorker i) → threads_ s !! i = Some w →
  ∃ s1 w1,
    worker_step i s = Some s1 ∧ threads_ s1 !! i = Some w1 ∧
    dtor s1 = dtor s ∧
    (m_task_ s1 = None ∨
     (m_task_ s1 = Some (OWorker i) ∧ lock_rank (pc w1) < lock_rank (pc w))).
Proof.
  intros Hinv Hm Hi.
  pose proof (inv_workers _ Hinv i w Hi) as Hw. unfold worker_inv in Hw.
  assert (i < length (threads_ s)) as Hlt by (by eapply lookup_lt_Some).
  unfold worker_step. rewrite Hi. simpl.
  destruct (pc w) eqn:Hpc; try (by destruct Hw); try naive_solver.
  - destruct (wait_pred s); eexists _, _;
      (split; [reflexivity|]); simpl;
      (split; [by apply list_lookup_insert_eq|]); (split; [done|]).
    + right. simpl. split; [done|lia].
    + by left.
  - destruct (bool_decide (tasks_ s = []) && is_terminated_ s); eexists _, _;
      (split; [reflexivity|]); simpl;
      (split; [by apply list_lookup_insert_eq|]); (split; [done|]).
    + by left.
    + right. simpl. split; [done|lia].
  - destruct (tasks_ s) as [|t q] eqn:Hq; [naive_solver|]. eexists _, _.
    split; [reflexivity|]. simpl.
    split; [by apply list_lookup_insert_eq|]. split; [done|].
    right. simpl. split; [done|lia].
  - eexists _, _. split; [reflexivity|]. simpl.
    split; [by apply list_lookup_insert_eq|]. split; [done|]. by left.
Qed.

Lemma release m i s w :
  lock_rank (pc w) ≤ m →
  pool_inv s → m_task_ s = Some (OWorker i) → threads_ s !! i = Some w →
  can_reach s (λ s', m_task_ s' = None ∧ dtor s' = dtor s).
Proof.
  revert s w. induction m as [|m IH]; intros s w Hm Hinv Hlock Hi;
    destruct (release_step i s w Hinv Hlock Hi)
      as (s1 & w1 & Hs & Hi1 & Hd & Hcase);
    apply (can_reach_step s (LWorker i) s1); try done;
    destruct Hcase as [Hfree|[Hown Hlt]]; try lia;
    try (by apply can_reach_here).
  eapply can_reach_mono.
  - apply (IH s1 w1); try done; [lia|by eapply (step_inv s (LWorker i))].
  - intros s2 [? ?]. split; congruence.
Qed.

(** *** The destructor up to the joins *)






(** *** The workers return, the joins complete *)




Lemma done_unlocked s :
  pool_inv s → owner_inv s → dtor s = DDone → m_task_ s = None.
Proof.
  intros Hinv Ho Hd. pose proof (inv_dtor _ Hinv) as Hdi.
  unfold dtor_inv in Hdi. rewrite Hd in Hdi. destruct Hdi as (_ & Hnd & Hall).
  destruct (m_task_ s) as [[i|]|] eqn:Hm; [|done..].
  destruct (lookup_lt_is_Some_2 _ _ (Ho i Hm)) as [w Hi].
  pose proof (inv_workers _ Hinv i w Hi) as Hw. unfold worker_inv in Hw.
  rewrite (Hall _ _ Hi) in Hw. naive_solver.
Qed.

Lemma reachable_sound n st sp p0 tr s :
  ThreadPool_ctor n st sp = Constructed p0 → run p0 tr = Some s → sound s.
Proof.
  intros Hc Hr. eapply run_sound; [|done]. split_and!.
  - by eapply ctor_inv.
  - by eapply ctor_owner.
  - unfold no_sleeper. revert Hc. unfold ThreadPool_ctor.
    case_match; [done|]. intros [= <-].
    by rewrite (proj2 (proj2 (proj2 (proj2 (proj2 (proj2 (proj2
                 (spawn_fields _ _)))))))).
Qed.




(** *** Further properties of the pool *)

(** Mutual exclusion: a worker between the lock of line 26 and its unlock
    owns [m_task_]; no other worker is in that region and the destructor is
    not inside its guarded scope. *)
Theorem mutual_exclusion n st sp p0 tr s i j wi wj :
  ThreadPool_ctor n st sp = Constructed p0 → run p0 tr = Some s →
  threads_ s !! i = Some wi → threads_ s !! j = Some wj →
  holds_mutex (pc wi) = true →
  m_task_ s = Some (OWorker i) ∧
  (holds_mutex (pc wj) = true → i = j) ∧
  dtor_holds_mutex (dtor s) = false.
Proof.
  intros Hc Hr Hi Hj Hh.
  pose proof (reachable_inv _ _ _ _ _ _ Hc Hr) as Hinv.
  assert (∀ k w, threads_ s !! k = Some w → holds_mutex (pc w) = true →
                 m_task_ s = Some (OWorker k)) as Hown.
  { intros k w Hk Hhk. pose proof (inv_workers _ Hinv k w Hk) as Hw.
    unfold worker_inv in Hw. destruct (pc w); try done; naive_solver. }
  pose proof (Hown _ _ Hi Hh) as Hm. split_and!; [done| |].
  - intros Hhj. specialize (Hown _ _ Hj Hhj). congruence.
  - pose proof (inv_dtor _ Hinv) as Hd. unfold dtor_inv in Hd.
    destruct (dtor s); try done; destruct Hd as [_ Hd]; congruence.
Qed.


Lemma ctor_start_hook n st sp p0 :
  ThreadPool_ctor n st sp = Constructed p0 →
  start_hook_inv p0 ∧ on_thread_start p0 = st.
Proof.
  unfold ThreadPool_ctor. case_match; [done|]. intros [= <-]. split.
  - intros i w. rewrite spawn_threads. simpl.
    by intros [-> _]%lookup_replicate_1.
  - by rewrite (proj1 (proj2 (proj2 (proj2 (proj2 (spawn_fields _ _)))))).
Qed.

(** The start hook: in every reachable state a worker that has passed lines
    21-23 has called a supplied start hook exactly once, a worker still at
    line 21 has not called it, and an absent hook is never called. *)
Theorem start_hook_called_once n st sp p0 tr s i w :
  ThreadPool_ctor n st sp = Constructed p0 → run p0 tr = Some s →
  threads_ s !! i = Some w →
  start_calls w = expected_start_calls st (pc w).
Proof.
  intros Hc Hr Hi. destruct (ctor_start_hook _ _ _ _ Hc) as [Hinv Hst].
  pose proof (run_start_hook _ _ _ Hinv Hr) as Hinv'.
  destruct (run_hooks _ _ _ Hr) as [Hst' _].
  rewrite (Hinv' _ _ Hi). congruence.
Qed.

(** The termination flag is false until the destructor has executed line
    48 and true from then on; no step of any thread resets it. *)
Theorem termination_flag_set_once n st sp p0 tr s tr' s' :
  ThreadPool_ctor n st sp = Constructed p0 → run p0 tr = Some s →
  run s tr' = Some s' →
  is_terminated_ s = dtor_flag_set (dtor s) ∧
  (is_terminated_ s = true → is_terminated_ s' = true).
Proof.
  intros Hc Hr Hr'. split; [|by apply (run_flag_stable tr')].
  pose proof (reachable_inv _ _ _ _ _ _ Hc Hr) as Hinv.
  pose proof (inv_dtor _ Hinv) as Hd. unfold dtor_inv in Hd.
  destruct (dtor s); naive_solver.
Qed.

(** A worker blocks in [cv_task_.wait] only by its own step at line 27,
    with the queue empty and the flag clear, and the mutex is free once it
    is blocked. *)
Theorem worker_sleeps_only_when_idle n st sp p0 tr s l s' i w w' :
  ThreadPool_ctor n st sp = Constructed p0 → run p0 tr = Some s →
  step s l = Some s' →
  threads_ s !! i = Some w → threads_ s' !! i = Some w' →
  pc w ≠ L27_blocked → pc w' = L27_blocked →
  l = LWorker i ∧ pc w = L27 ∧ tasks_ s = [] ∧ is_terminated_ s = false ∧
  m_task_ s = Some (OWorker i) ∧ m_task_ s' = None.
Proof.
  intros Hc Hr Hs Hi Hi' Hne Hb.
  destruct (step_blocks _ _ _ _ _ _ Hs Hi Hi' Hne Hb)
    as (-> & Hpc & Hq & Ht & Hm).
  split_and!; try done.
  pose proof (reachable_inv _ _ _ _ _ _ Hc Hr) as Hinv.
  pose proof (inv_workers _ Hinv i w Hi) as Hw. unfold worker_inv in Hw.
  rewrite Hpc in Hw. naive_solver.
Qed.

(** Once the destructor has passed [notify_all], no worker is blocked in
    [cv_task_.wait] any more, whatever is submitted or woken later. *)
Theorem no_worker_sleeps_through_teardown n st sp p0 tr s i w :
  ThreadPool_ctor n st sp = Constructed p0 → run p0 tr = Some s →
  threads_ s !! i = Some w →
  (∃ j, dtor s = D53 j) ∨ dtor s = DDone →
  pc w ≠ L27_blocked.
Proof.
  intros Hc Hr Hi Hd.
  destruct (reachable_sound _ _ _ _ _ _ Hc Hr) as (_ & _ & Hns).
  unfold no_sleeper in Hns.
  destruct Hd as [[j Hd]|Hd]; rewrite Hd in Hns; by eapply Hns.
Qed.

(** When the destructor has returned, every worker thread has returned,
    the mutex is unlocked and the flag is set: the members can be
    destroyed. *)
Theorem destructor_leaves_pool_idle n st sp p0 tr s :
  ThreadPool_ctor n st sp = Constructed p0 → run p0 tr = Some s →
  dtor s = DDone →
  m_task_ s = None ∧ is_terminated_ s = true ∧
  length (threads_ s) = n ∧
  ∀ i w, threads_ s !! i = Some w → pc w = Returned ∧ stop_calls w = 0.
Proof.
  intros Hc Hr Hd.
  destruct (reachable_sound _ _ _ _ _ _ Hc Hr) as (Hinv & Ho & _).
  pose proof (inv_dtor _ Hinv) as Hdi. unfold dtor_inv in Hdi.
  rewrite Hd in Hdi. destruct Hdi as (Ht & _ & Hall).
  split_and!; [by apply done_unlocked|done| |].
  - rewrite (inv_size _ Hinv), (run_num_threads _ _ _ Hr).
    revert Hc. unfold ThreadPool_ctor. case_match; [done|]. intros [= <-].
    by rewrite (proj1 (spawn_fields _ _)).
  - intros i w Hi. split; [by eapply Hall|].
    pose proof (inv_workers _ Hinv i w Hi) as Hw. by destruct Hw.
Qed.

(** The mutex is never held for good: from every reachable state the pool
    can by itself get to a state in which [m_task_] is free. *)
Theorem mutex_can_be_released n st sp p0 tr s :
  ThreadPool_ctor n st sp = Constructed p0 → run p0 tr = Some s →
  can_reach s (λ s', m_task_ s' = None).
Proof.
  intros Hc Hr.
  destruct (reachable_sound _ _ _ _ _ _ Hc Hr) as (Hinv & Ho & _).
  destruct (m_task_ s) as [[i|]|] eqn:Hm; [| |by apply can_reach_here].
  - destruct (lookup_lt_is_Some_2 _ _ (Ho i Hm)) as [w Hi].
    eapply can_reach_mono; [by eapply (release _ i s w)|]. by intros s1 [? _].
  - pose proof (inv_dtor _ Hinv) as Hd. unfold dtor_inv in Hd.
    destruct (dtor s) eqn:Hpc; try (destruct Hd as (_ & Hd & _); congruence);
      try (destruct Hd as (_ & Hd); congruence).
    + apply (can_reach_step s LDtor (set_terminated true (set_dtor D49 s)));
        [simpl; unfold dtor_step; by rewrite Hpc|done|].
      apply (can_reach_step _ LDtor
               (set_mutex None (set_dtor D51 (set_terminated true (set_dtor D49 s)))));
        [done..|]. by apply can_reach_here.
    + apply (can_reach_step s LDtor (set_mutex None (set_dtor D51 s)));
        [simpl; unfold dtor_step; by rewrite Hpc|done|].
      by apply can_reach_here.
Qed.

(** *** A queued task gets run *)








(** *** The life of a task in a worker's hands *)

Lemma step_frame s l s' i w w' :
  step s l = Some s' →
  threads_ s !! i = Some w → threads_ s' !! i = Some w' →
  l = LWorker i ∨ w' = w ∨ (pc w = L27_blocked ∧ w' = set_pc L27_woken w).
Proof.
  intros Hs Hi Hi'.
  assert (∀ j w0, threads_ s !! j = Some w0 → pc w0 = L27_blocked →
            <[j:=set_pc L27_woken w0]> (threads_ s) !! i = Some w' →
            w' = w ∨ (pc w = L27_blocked ∧ w' = set_pc L27_woken w)) as Hwake.
  { intros j w0 Hj Hpc Hl.
    apply list_lookup_insert_Some in Hl as [(-> & <- & _)|(_ & Hl)];
      [right|left]; [|congruence].
    assert (w0 = w) as -> by congruence. done. }
  destruct l as [j|j|f a target|]; simpl in Hs.
  - destruct (decide (j = i)) as [->|Hji]; [by left|]. right. left.
    unfold worker_step in Hs.
    destruct (threads_ s !! j) as [w0|] eqn:Hj; [simpl in Hs|done].
    assert (threads_ s' !! i = threads_ s !! i) as Heq; [|congruence].
    destruct (pc w0) eqn:Hpc; repeat case_match; try done;
      injection Hs as <-; simpl; by rewrite list_lookup_insert_ne.
  - right. apply wake_step_shape in Hs as (w0 & Hj & Hpc & ->).
    by apply (Hwake j w0).
  - right. unfold Enqueue in Hs. destruct (m_task_ s); [done|]. simpl in Hs.
    destruct (notify_one target _) as [s3|] eqn:Hn; [simpl in Hs|done].
    injection Hs as <-. destruct target as [j|]; simpl in Hn.
    + apply wake_step_shape in Hn as (w0 & Hj & Hpc & ->).
      by apply (Hwake j w0).
    + case_match; [|done]. injection Hn as <-. simpl in *. left. congruence.
  - right. unfold dtor_step in Hs.
    destruct (dtor s) eqn:Hpc; repeat case_match; try done;
      injection Hs as <-; simpl in *; try (left; congruence).
    apply list_lookup_fmap_Some in Hi' as (w0 & -> & Hi0).
    assert (w0 = w) as -> by congruence.
    unfold wake. destruct (pc w) eqn:Hpcw; eauto.
Qed.

Lemma worker_step_hands i s s' w w' :
  worker_step i s = Some s' →
  threads_ s !! i = Some w → threads_ s' !! i = Some w' →
  held_task w' ≠ held_task w →
  (∃ t, pc w = L31 ∧ pc w' = L33 t ∧ tasks_ s = t :: tasks_ s' ∧
        channels s' = channels s ∧ m_task_ s' = m_task_ s) ∨
  (∃ t, pc w = L35 t ∧ pc w' = L26 ∧ tasks_ s' = tasks_ s ∧
        channels s' = <[t_chan t := to_channel (result_of t)]> (channels s) ∧
        m_task_ s' = m_task_ s).
Proof.
  intros Hs Hi Hi' Hne. unfold worker_step in Hs. rewrite Hi in Hs.
  simpl in Hs.
  assert (i < length (threads_ s)) as Hlt by (by eapply lookup_lt_Some).
  destruct (pc w) eqn:Hpc; simpl in Hs; repeat case_match; try done;
    injection Hs as <-; simpl in Hi';
    rewrite list_lookup_insert_eq in Hi' by done;
    injection Hi' as <-; unfold held_task in Hne; simpl in Hne;
    rewrite ?Hpc in Hne; try done.
  - left. eexists. simpl. split_and!; try done.
  - right. eexists. simpl. split_and!; try done.
Qed.

(** A worker gets a task into its hands only by its own step at line 31,
    holding the mutex, and the task is the front of the queue, which loses
    exactly that entry; it lets go of the task only by running it at line
    35, not holding the mutex, the task's channel receiving the outcome of
    its callable.  No other thread's step changes what a worker holds. *)
Theorem task_taken_from_front_and_run n st sp p0 tr s l s' i w w' :
  ThreadPool_ctor n st sp = Constructed p0 → run p0 tr = Some s →
  step s l = Some s' →
  threads_ s !! i = Some w → threads_ s' !! i = Some w' →
  held_task w' ≠ held_task w →
  l = LWorker i ∧
  ((∃ t, held_task w = None ∧ held_task w' = Some t ∧
         tasks_ s = t :: tasks_ s' ∧ m_task_ s = Some (OWorker i) ∧
         channels s' = channels s) ∨
   (∃ t, held_task w = Some t ∧ held_task w' = None ∧
         tasks_ s' = tasks_ s ∧ m_task_ s ≠ Some (OWorker i) ∧
         channels s' !! t_chan t = Some (to_channel (result_of t)))).
Proof.
  intros Hc Hr Hs Hi Hi' Hne.
  pose proof (reachable_inv _ _ _ _ _ _ Hc Hr) as Hinv.
  pose proof (inv_workers _ Hinv i w Hi) as Hw. unfold worker_inv in Hw.
  destruct (step_frame _ _ _ _ _ _ Hs Hi Hi') as [->|[->|[Hpc ->]]];
    [|done|].
  - split; [done|]. simpl in Hs.
    destruct (worker_step_hands _ _ _ _ _ Hs Hi Hi' Hne)
      as [(t & Hpc & Hpc' & Hq & Hch & Hm)|(t & Hpc & Hpc' & Hq & Hch & Hm)];
      rewrite Hpc in Hw; [left|right]; exists t; unfold held_task;
      rewrite Hpc, Hpc'; split_and!; try done; try naive_solver.
    rewrite Hch. apply list_lookup_insert_eq. naive_solver.
  - exfalso. apply Hne. unfold held_task. simpl. by rewrite Hpc.
Qed.

Lemma step_shared_state s l s' :
  step s l = Some s' →
  (tasks_ s' ≠ tasks_ s →
   (∃ i w, l = LWorker i ∧ threads_ s !! i = Some w ∧ pc w = L31) ∨
   (∃ f a target, l = LEnqueue f a target ∧ m_task_ s = None)) ∧
  (is_terminated_ s' ≠ is_terminated_ s → l = LDtor ∧ dtor s = D48).
Proof.
  destruct l as [i|i|f a target|]; simpl.
  - unfold worker_step. destruct (threads_ s !! i) as [w|] eqn:Hi; [simpl|done].
    destruct (pc w) eqn:Hpc; repeat case_match; try done; intros [= <-];
      simpl; split; try done. intros _. left. by exists i, w.
  - by intros (w0 & Hj & Hpc & ->)%wake_step_shape.
  - unfold Enqueue. destruct (m_task_ s) eqn:Hm; [done|]. simpl.
    destruct (notify_one target _) as [s3|] eqn:Hn; [simpl|done].
    intros [= <-].
    destruct (notify_one_fields _ _ _ Hn) as (_ & _ & -> & _). simpl.
    split; [|done]. intros _. right. eauto.
  - unfold dtor_step.
    destruct (dtor s) eqn:Hpc; repeat case_match; try done; intros [= <-];
      simpl; split; done.
Qed.

(** The queue and the termination flag change only inside a critical
    section of [m_task_]: a worker's step changes the queue only at line 31,
    where it owns the mutex, and the flag is changed only by the destructor
    at line 48, where it owns the mutex; the steps of lines 21-30 and 33-41
    and the destructor's [notify_all] and joins leave both untouched. *)
Theorem shared_state_changes_under_mutex n st sp p0 tr s l s' :
  ThreadPool_ctor n st sp = Constructed p0 → run p0 tr = Some s →
  step s l = Some s' →
  (∀ i, l = LWorker i → tasks_ s' ≠ tasks_ s →
        m_task_ s = Some (OWorker i) ∧ ∃ t, tasks_ s = t :: tasks_ s') ∧
  (l = LDtor → tasks_ s' = tasks_ s) ∧
  (is_terminated_ s' ≠ is_terminated_ s →
   l = LDtor ∧ m_task_ s = Some ODtor ∧ is_terminated_ s' = true).
Proof.
  intros Hc Hr Hs.
  pose proof (reachable_inv _ _ _ _ _ _ Hc Hr) as Hinv.
  destruct (step_shared_state _ _ _ Hs) as [Hq Ht]. split_and!.
  - intros i -> Hne.
    destruct (Hq Hne) as [(j & w & [= <-] & Hi & Hpc)|(f & a & tg & ? & _)];
      [|done].
    pose proof (inv_workers _ Hinv i w Hi) as Hw. unfold worker_inv in Hw.
    rewrite Hpc in Hw. destruct Hw as (_ & Hm & Hne').
    split; [done|]. simpl in Hs. unfold worker_step in Hs.
    rewrite Hi in Hs. simpl in Hs. rewrite Hpc in Hs.
    destruct (tasks_ s) as [|t q]; [done|]. injection Hs as <-.
    by exists t.
  - intros ->. clear Hq Ht. simpl in Hs. unfold dtor_step in Hs.
    repeat case_match; try done; by injection Hs as <-.
  - intros Hne. destruct (Ht Hne) as [-> Hd]. split; [done|].
    pose proof (inv_dtor _ Hinv) as Hdi. unfold dtor_inv in Hdi.
    rewrite Hd in Hdi. split; [naive_solver|].
    simpl in Hs. unfold dtor_step in Hs. rewrite Hd in Hs.
    by injection Hs as <-.
Qed.

(** The pool has a fixed size: in every reachable state the number of
    worker threads and the stored thread count are the constructor's
    argument, and the hooks are the ones passed to the constructor. *)
Theorem pool_size_fixed n st sp p0 tr s :
  ThreadPool_ctor n st sp = Constructed p0 → run p0 tr = Some s →
  length (threads_ s) = n ∧ num_threads_ s = n ∧
  on_thread_start s = st ∧ on_thread_stop s = sp.
Proof.
  intros Hc Hr.
  pose proof (reachable_inv _ _ _ _ _ _ Hc Hr) as Hinv.
  rewrite (inv_size _ Hinv), (run_num_threads _ _ _ Hr).
  destruct (run_hooks _ _ _ Hr) as [-> ->].
  revert Hc. unfold ThreadPool_ctor. case_match; [done|]. intros [= <-].
  by destruct (spawn_fields n (member_init (Arg:=Arg) (Val:=Val) (Exn:=Exn)
                                 n st sp))
    as (-> & _ & _ & _ & -> & -> & _).
Qed.

End Invariants.

(** ** The claims on the run of the test suite's tasks *)



Lemma teardown_drains_queue_witness :
  channels (state_after (submit_trace ++ teardown_trace)) !! 1
  = Some (Failure "Test Exception").
Proof.
  destruct (teardown_drains_queue 1 false true test_pool submit_trace
              (state_after submit_trace))
    as [_ Hdrain]; [vm_compute; reflexivity..|].
  apply (Hdrain eq_refl teardown_trace
           (state_after (submit_trace ++ teardown_trace))
           (Task 1 throw_test_exception (0, 0)%Z));
    [vm_compute; reflexivity..|].
  apply list_elem_of_lookup. exists 1. vm_compute. reflexivity.
Defined.

Lemma task_runs_without_lock_witness :
  m_task_ (state_after to_task_trace) ≠ Some (OWorker 0).
Proof.
  apply (task_runs_without_lock 1 false true test_pool to_task_trace
           (state_after to_task_trace) 0
           (Worker (L35 (Task 0 add_args (5, 7)%Z)) 0 0)
           (Task 0 add_args (5, 7)%Z)); vm_compute; reflexivity.
Defined.

Lemma pop_only_when_nonempty_witness :
  tasks_ (state_after to_pop_trace) ≠ [].
Proof.
  apply (pop_only_when_nonempty 1 false true test_pool to_pop_trace
           (state_after to_pop_trace) 0 (Worker L31 0 0));
    vm_compute; reflexivity.
Defined.

(** C8 as stated fails: when the platform reports a hardware concurrency of
    0, default construction does not fall back to one worker, it throws. *)
Lemma default_ctor_no_fallback :
  ¬ ∃ p : pool (Z * Z) Z string,
      ThreadPool_default_ctor 0 false false = Constructed p ∧
      1 ≤ length (threads_ p).
Proof. intros (p & Hp & _). discriminate Hp. Qed.

(** C9 fails on the code: the [return] of line 29 leaves the lambda, so
    lines 38-40 are never reached.  On [ThreadPool pool(1)] built with a stop
    hook, after two submissions and a complete teardown, the destructor has
    returned, the worker has returned, and the stop hook was called 0
    times. *)
Theorem stop_hook_not_called_at_teardown :
  ThreadPool_ctor 1 false true = Constructed test_pool ∧
  run test_pool (submit_trace ++ teardown_trace)
  = Some (state_after (submit_trace ++ teardown_trace)) ∧
  on_thread_stop (state_after (submit_trace ++ teardown_trace)) = true ∧
  dtor (state_after (submit_trace ++ teardown_trace)) = DDone ∧
  threads_ (state_after (submit_trace ++ teardown_trace))
  = [Worker Returned 0 0].
Proof. vm_compute. repeat split. Qed.

(** ** The further properties on the run of the test suite's tasks *)

Lemma mutual_exclusion_witness :
  m_task_ (state_after to_pop_trace) = Some (OWorker 0).
Proof.
  apply (mutual_exclusion 1 false true test_pool to_pop_trace
           (state_after to_pop_trace) 0 0 (Worker L31 0 0) (Worker L31 0 0));
    vm_compute; reflexivity.
Defined.


Lemma start_hook_called_once_witness :
  start_calls (Worker (Arg:=Z * Z) (Val:=Z) (Exn:=string) L26 1 0) = 1.
Proof.
  apply (start_hook_called_once 2 true true hooked_pool [LWorker 0]
           (hooked_after [LWorker 0]) 0 (Worker L26 1 0));
    vm_compute; reflexivity.
Defined.

Lemma termination_flag_set_once_witness :
  is_terminated_ (state_after (submit_trace ++ replicate 3 LDtor))
  = dtor_flag_set (dtor (state_after (submit_trace ++ replicate 3 LDtor))).
Proof.
  apply (termination_flag_set_once 1 false true test_pool
           (submit_trace ++ replicate 3 LDtor)
           (state_after (submit_trace ++ replicate 3 LDtor))
           (replicate 2 LDtor)
           (state_after (submit_trace ++ replicate 5 LDtor)));
    vm_compute; reflexivity.
Defined.

Lemma worker_sleeps_only_when_idle_witness :
  LWorker (Arg:=Z * Z) (Val:=Z) (Exn:=string) 0 = LWorker 0 ∧
  pc (Worker (Arg:=Z * Z) (Val:=Z) (Exn:=string) L27 0 0) = L27 ∧
  tasks_ (state_after (replicate 2 (LWorker 0))) = [] ∧
  is_terminated_ (state_after (replicate 2 (LWorker 0))) = false ∧
  m_task_ (state_after (replicate 2 (LWorker 0))) = Some (OWorker 0) ∧
  m_task_ (state_after (replicate 3 (LWorker 0))) = None.
Proof.
  apply (worker_sleeps_only_when_idle 1 false true test_pool
           (replicate 2 (LWorker 0)) (state_after (replicate 2 (LWorker 0)))
           (LWorker 0) (state_after (replicate 3 (LWorker 0))) 0
           (Worker L27 0 0) (Worker L27_blocked 0 0));
    vm_compute; (reflexivity || discriminate).
Defined.

Lemma no_worker_sleeps_through_teardown_witness :
  pc (Worker (Arg:=Z * Z) (Val:=Z) (Exn:=string) Returned 0 0) ≠ L27_blocked.
Proof.
  apply (no_worker_sleeps_through_teardown 1 false true test_pool
           (submit_trace ++ teardown_trace)
           (state_after (submit_trace ++ teardown_trace)) 0
           (Worker Returned 0 0)); [vm_compute; reflexivity..|].
  right. vm_compute. reflexivity.
Defined.

Lemma destructor_leaves_pool_idle_witness :
  m_task_ (state_after (submit_trace ++ teardown_trace)) = None.
Proof.
  apply (destructor_leaves_pool_idle 1 false true test_pool
           (submit_trace ++ teardown_trace)
           (state_after (submit_trace ++ teardown_trace)));
    vm_compute; reflexivity.
Defined.

Lemma mutex_can_be_released_witness :
  can_reach (state_after to_pop_trace) (λ s', m_task_ s' = None).
Proof.
  apply (mutex_can_be_released 1 false true test_pool to_pop_trace
           (state_after to_pop_trace)); vm_compute; reflexivity.
Defined.



Lemma task_taken_from_front_and_run_witness :
  LWorker (Arg:=Z * Z) (Val:=Z) (Exn:=string) 0 = LWorker 0.
Proof.
  apply (task_taken_from_front_and_run 1 false true test_pool to_pop_trace
           (state_after to_pop_trace) (LWorker 0)
           (state_after (submit_trace ++ replicate 5 (LWorker 0))) 0
           (Worker L31 0 0)
           (Worker (L33 (Task 0 add_args (5, 7)%Z)) 0 0));
    [vm_compute; reflexivity..|].
  vm_compute. discriminate.
Defined.

Lemma shared_state_changes_under_mutex_witness :
  tasks_ (state_after (submit_trace ++ replicate 3 LDtor))
  = tasks_ (state_after (submit_trace ++ replicate 2 LDtor)).
Proof.
  apply (shared_state_changes_under_mutex 1 false true test_pool
           (submit_trace ++ replicate 2 LDtor)
           (state_after (submit_trace ++ replicate 2 LDtor)) LDtor
           (state_after (submit_trace ++ replicate 3 LDtor)));
    vm_compute; reflexivity.
Defined.

Lemma pool_size_fixed_witness :
  length (threads_ (hooked_after (replicate 3 (LWorker 1)))) = 2.
Proof.
  apply (pool_size_fixed 2 true true hooked_pool (replicate 3 (LWorker 1))
           (hooked_after (replicate 3 (LWorker 1))));
    vm_compute; reflexivity.
Defined.

End PoolTheory.

Module AlgorithmsTheory.
Import Algorithms.

(** ** The partition covers the range *)








(** ** Schedules of ForEach *)







(** ** Folding chunk by chunk *)

Section Fold.

Context {A T : Type} (transformFn : A → T) (reduceFn : T → T → T).



End Fold.






(** ** ForEach *)



(** ** TransformReduce *)




End AlgorithmsTheory.
